(** * The pluggable goroutine scheduler: default policy and example policies

    A shallow embedding of [src/runtime/scheduler.go] (the [Scheduler]
    interface), [src/runtime/scheduler_default.go] ([schedulerImpl]) and
    [src/runtime/scheduler_experimental.go] (the three example policies).

    The scheduler methods run against the state of the Go runtime: the
    processors with their local run queues, the global run queue behind
    [sched.lock], the tracer and the garbage collector.  That state is the
    record [world]; a method is a function from a [world] to either a
    result and a new [world], or to nothing when the call does not return
    (a throw, a wait on a mutex that is never released, a bad pointer). *)

From Stdlib Require Import ZArith Lia.
From stdpp Require Import base option list.

(** ** Data *)

(** A goroutine is known by the address of its [g] structure. *)
Definition g : Set := positive.

(** [guintptr]: the address kept as an integer, [0] for no goroutine. *)
Definition guintptr : Set := N.

(** [guintptr(unsafe.Pointer(gp))] *)
Definition guintptr_of (gp : g) : guintptr := Npos gp.

(** [gp.ptr()] *)
Definition guintptr_ptr (x : guintptr) : option g :=
  match x with
  | N0 => None
  | Npos a => Some a
  end.

(** The status of a goroutine, as far as [NextTask] changes it. *)
Inductive Gstatus : Set := Gidle | Grunnable | Grunning | Gwaiting | Gdead.

#[global] Instance Gstatus_eq_dec : EqDecision Gstatus.
Proof. solve_decision. Defined.

(** The value of type [interface{}] that a scheduler method hands back for a
    goroutine.  Go keeps two things in an interface value, a dynamic type and
    a value of that type.  [inil] is the nil interface (no dynamic type): it
    is what [return nil] produces.  [iptr gp] has dynamic type [*g]; it is what
    the conversion of an expression of static type [*g] produces, and the
    pointer inside may itself be nil ([iptr None]).  The methods of
    [scheduler_default.go] produce both kinds: [return nil] in [NextTask] and
    [GetFromGlobalQueue], and the conversion of a [*g] in [return gp] and in
    [return runqget(pp)]. *)
Inductive iface : Set :=
  | inil
  | iptr (gp : option g).

(** [gpInterface != nil].  By the rule of the language for comparing an
    interface value with [nil], the value is equal to [nil] only when it has
    no dynamic type: an interface that holds a nil [*g] is not equal to
    [nil]. *)
Definition iface_nonnil (i : iface) : bool :=
  match i with
  | inil => false
  | iptr _ => true
  end.

(** The goroutine an interface value carries, if any. *)
Definition iface_g (i : iface) : option g :=
  match i with
  | inil => None
  | iptr gp => gp
  end.

(** A processor.  [runq] lists the goroutines that sit in the ring, oldest
    first; [runq_len] stands for [len(pp.runq)], the number of slots of the
    ring, which is part of the type of [p] in [runtime2.go]. *)
Record p : Set := mkP {
  schedtick : Z;
  runnext : guintptr;
  runq : list g;
  runq_len : nat
}.

Definition p_set_schedtick (t : Z) (pp : p) : p :=
  mkP t (runnext pp) (runq pp) (runq_len pp).
Definition p_set_runnext (x : guintptr) (pp : p) : p :=
  mkP (schedtick pp) x (runq pp) (runq_len pp).
Definition p_set_runq (q : list g) (pp : p) : p :=
  mkP (schedtick pp) (runnext pp) q (runq_len pp).

(** A worker thread is only passed along. *)
Definition m : Set := nat.

(** [sched]: the mutex [sched.lock] (held or not) and the global run queue,
    first in first out, head of the queue first. *)
Record schedt : Set := mkSched {
  sched_lock : bool;
  sched_runq : list g
}.

(** The runtime state the scheduler methods read and write.  A [*p] is the
    index of the processor in [allp]. *)
Record world : Type := mkWorld {
  sched : schedt;
  allp : list p;
  (** the processor of the calling thread, [getg().m.p] *)
  getg_p : nat;
  (** the order in which [stealWork] visits the processors *)
  stealOrder : list nat;
  gstatus : g -> Gstatus;
  (** the tracer: its two flags, the reader goroutine that is ready to be
      handed out, and the events written so far *)
  trace_enabled : bool;
  trace_shutdown : bool;
  trace_reader : option g;
  trace_log : list g;
  (** the collector: the mark-phase flag and the worker it would hand out *)
  gcBlackenEnabled : Z;
  gc_worker : option g;
  (** the clock *)
  clock : Z
}.

Definition set_sched (s : schedt) (w : world) : world :=
  mkWorld s (allp w) (getg_p w) (stealOrder w) (gstatus w) (trace_enabled w)
    (trace_shutdown w) (trace_reader w) (trace_log w) (gcBlackenEnabled w)
    (gc_worker w) (clock w).
Definition set_allp (ps : list p) (w : world) : world :=
  mkWorld (sched w) ps (getg_p w) (stealOrder w) (gstatus w) (trace_enabled w)
    (trace_shutdown w) (trace_reader w) (trace_log w) (gcBlackenEnabled w)
    (gc_worker w) (clock w).
Definition set_gstatus (f : g -> Gstatus) (w : world) : world :=
  mkWorld (sched w) (allp w) (getg_p w) (stealOrder w) f (trace_enabled w)
    (trace_shutdown w) (trace_reader w) (trace_log w) (gcBlackenEnabled w)
    (gc_worker w) (clock w).
Definition set_trace_reader (r : option g) (w : world) : world :=
  mkWorld (sched w) (allp w) (getg_p w) (stealOrder w) (gstatus w)
    (trace_enabled w) (trace_shutdown w) r (trace_log w) (gcBlackenEnabled w)
    (gc_worker w) (clock w).
Definition set_trace_log (l : list g) (w : world) : world :=
  mkWorld (sched w) (allp w) (getg_p w) (stealOrder w) (gstatus w)
    (trace_enabled w) (trace_shutdown w) (trace_reader w) l
    (gcBlackenEnabled w) (gc_worker w) (clock w).
Definition set_gc_worker (r : option g) (w : world) : world :=
  mkWorld (sched w) (allp w) (getg_p w) (stealOrder w) (gstatus w)
    (trace_enabled w) (trace_shutdown w) (trace_reader w) (trace_log w)
    (gcBlackenEnabled w) r (clock w).

Definition set_lock (b : bool) (w : world) : world :=
  set_sched (mkSched b (sched_runq (sched w))) w.
Definition set_sched_runq (q : list g) (w : world) : world :=
  set_sched (mkSched (sched_lock (sched w)) q) w.

(** ** Calls into the runtime *)

(** A call reads and writes the [world]; [None] stands for a call that does
    not return. *)
Definition M (A : Type) : Type := world -> option (A * world).

#[global] Instance M_ret : MRet M := fun A a w => Some (a, w).
#[global] Instance M_bind : MBind M := fun A B f c w =>
  match c w with
  | Some (a, w') => f a w'
  | None => None
  end.

Definition gets {A : Type} (f : world -> A) : M A := fun w => Some (f w, w).
Definition modify (f : world -> world) : M unit := fun w => Some (tt, f w).

(** Reading and writing through a [*p]. *)
Definition get_p (pp : nat) : M p := fun w =>
  match allp w !! pp with
  | Some P => Some (P, w)
  | None => None
  end.
Definition put_p (pp : nat) (P : p) : M unit :=
  modify (fun w => set_allp (<[pp := P]> (allp w)) w).

(** The early return of Go: [c] looks for a result; when it has one the
    function returns it, and otherwise the rest [k] of the body runs. *)
Definition or_else {A : Type} (c : M (option A)) (k : M A) : M A :=
  r ← c;
  match r with
  | Some a => mret a
  | None => k
  end.

(** *** The mutex [sched.lock] *)

(** [lock(&sched.lock)]: a thread that takes a mutex which is held waits. *)
Definition lock_sched : M unit := fun w =>
  if sched_lock (sched w) then None else Some (tt, set_lock true w).

(** [unlock(&sched.lock)]: releasing a free mutex is fatal. *)
Definition unlock_sched : M unit := fun w =>
  if sched_lock (sched w) then Some (tt, set_lock false w) else None.

(** [assertLockHeld(&sched.lock)] *)
Definition assertLockHeld_sched : M unit := fun w =>
  if sched_lock (sched w) then Some (tt, w) else None.

(** *** The global run queue *)

(** [sched.runq.empty()], read without the lock. *)
Definition sched_runq_empty : M bool :=
  gets (fun w => match sched_runq (sched w) with [] => true | _ => false end).

(** Modelled from the spec: [globrunqput] of [proc.go], the push of the
    Global Run Queue (4.2): inside the critical section, the task goes to the
    back of the first-in-first-out queue. *)
Definition globrunqput (gp : g) : M unit :=
  assertLockHeld_sched;;
  modify (fun w => set_sched_runq (sched_runq (sched w) ++ [gp]) w).

(** Modelled from the spec: [globrunqputbatch] of [proc.go], the pushBatch of
    the Global Run Queue (4.2): the batch goes to the back, in its order. *)
Definition globrunqputbatch (batch : list g) : M unit :=
  assertLockHeld_sched;;
  modify (fun w => set_sched_runq (sched_runq (sched w) ++ batch) w).

(** Modelled from the spec: [globrunqgetbatch] of [proc.go], the popBatch of
    the Global Run Queue (4.2, and step 2 of 4.4: pop one task and
    opportunistically a refill batch): inside the critical section, the head
    of the queue is popped as the task to run, then up to [n - 1] more tasks
    are popped, in queue order, as the batch.  An empty queue gives nothing. *)
Definition globrunqgetbatch (n : Z) : M (option g * list g) :=
  assertLockHeld_sched;;
  q ← gets (fun w => sched_runq (sched w));
  match q with
  | [] => mret (None, [])
  | gp :: rest =>
      let k := Z.to_nat (n - 1) in
      modify (set_sched_runq (drop k rest));;
      mret (Some gp, take k rest)
  end.

(** *** The local run queue *)

(** Modelled from the spec: the push of the Local Run Queue (4.1) with
    [runNext] false: append to the ring; when the ring is full, the oldest
    half of its contents and the new task go to the Global Run Queue as one
    batch, in one critical section. *)
Definition runq_push (pp : nat) (gp : g) : M unit :=
  P ← get_p pp;
  if decide (length (runq P) < runq_len P) then
    put_p pp (p_set_runq (runq P ++ [gp]) P)
  else
    let n := length (runq P) / 2 in
    put_p pp (p_set_runq (drop n (runq P)) P);;
    lock_sched;;
    globrunqputbatch (take n (runq P) ++ [gp]);;
    unlock_sched.

(** Modelled from the spec: [runqput] of [proc.go], the push of the Local Run
    Queue (4.1): with [next] the task is swapped into the run-next slot and
    the task it displaces, if any, is pushed onto the ring; without [next]
    the task is pushed onto the ring. *)
Definition runqput (pp : nat) (gp : g) (next : bool) : M unit :=
  if next then
    P ← get_p pp;
    put_p pp (p_set_runnext (guintptr_of gp) P);;
    match guintptr_ptr (runnext P) with
    | Some old => runq_push pp old
    | None => mret tt
    end
  else runq_push pp gp.

(** Modelled from the spec: [runqputbatch] of [proc.go] (9, open question: a
    batch pulled from Global may not fully fit locally): the tasks of [q] are
    appended to the ring while it has a free slot; the tasks that did not fit
    are left in [q], which is returned.  With an empty [q] there is nothing
    to place and the processor is not looked at. *)
Definition runqputbatch (pp : nat) (q : list g) : M (list g) :=
  match q with
  | [] => mret []
  | _ :: _ =>
      P ← get_p pp;
      let room := runq_len P - length (runq P) in
      put_p pp (p_set_runq (runq P ++ take room q) P);;
      mret (drop room q)
  end.

(** Modelled from the spec: [runqget] of [proc.go], the popOwn of the Local
    Run Queue (4.1): the task of the run-next slot if it is occupied, else the
    newest entry of the ring, else nothing.  The spec does not say which
    tasks inherit the time slice; as in the runtime, the task of the run-next
    slot does and a task of the ring does not. *)
Definition runqget (pp : nat) : M (option g * bool) :=
  P ← get_p pp;
  match guintptr_ptr (runnext P) with
  | Some gp => put_p pp (p_set_runnext 0%N P);; mret (Some gp, true)
  | None =>
      match last (runq P) with
      | Some gp => put_p pp (p_set_runq (removelast (runq P)) P);; mret (Some gp, false)
      | None => mret (None, false)
      end
  end.

(** *** Work stealing *)

(** Modelled from the spec: stealHalf (4.1): a victim with fewer than two
    entries in its ring gives nothing; otherwise the oldest [ceil (k / 2)] of
    its [k] entries are removed.  The run-next slot is never touched.  A
    processor that does not exist gives nothing. *)
Definition stealHalf (victim : nat) : M (list g) := fun w =>
  match allp w !! victim with
  | None => Some ([], w)
  | Some V =>
      let k := length (runq V) in
      if decide (k < 2) then Some ([], w)
      else
        let n := k - k / 2 in
        Some (take n (runq V),
              set_allp (<[victim := p_set_runq (drop n (runq V)) V]> (allp w)) w)
  end.

(** Modelled from the spec: step 2 of the Work-Stealing Coordinator (4.3):
    the victims are tried in order, the requesting processor is skipped; the
    first batch that is not empty ends the search.  The spec leaves open which
    task of the batch runs at once: here, as in the runtime, the last of the
    batch, the others going to the ring of the requesting processor. *)
Fixpoint steal_from (victims : list nat) (me : nat) : M (option g) :=
  match victims with
  | [] => mret None
  | v :: vs =>
      if decide (v = me) then steal_from vs me
      else
        batch ← stealHalf v;
        match last batch with
        | None => steal_from vs me
        | Some gp =>
            P ← get_p me;
            put_p me (p_set_runq (runq P ++ removelast batch) P);;
            mret (Some gp)
        end
  end.

(** Modelled from the spec: [stealWork] of [proc.go], the Work-Stealing
    Coordinator (4.3), for the processor of the calling thread.  There are no
    timers in this model: the poll deadline is [0] and no new work is
    reported. *)
Definition stealWork (now : Z) : M (option g * bool * Z * Z * bool) :=
  me ← gets getg_p;
  order ← gets stealOrder;
  gp ← steal_from order me;
  mret (gp, false, now, 0%Z, false).

(** *** The injected work: tracer, collector, clock *)

Definition traceEnabled : M bool := gets trace_enabled.
Definition traceShuttingDown : M bool := gets trace_shutdown.

(** [traceReader()]: the reader goroutine that is ready, handed out once. *)
Definition traceReader : M (option g) :=
  r ← gets trace_reader;
  match r with
  | Some gp => modify (set_trace_reader None);; mret (Some gp)
  | None => mret None
  end.

(** [traceAcquire()] gives a locker; [trace.ok()] on it says whether events
    can be written. *)
Definition traceAcquire : M bool := gets trace_enabled.

(** [trace.GoUnpark(gp, 0)] *)
Definition GoUnpark (gp : g) : M unit :=
  modify (fun w => set_trace_log (trace_log w ++ [gp]) w).

(** [traceRelease(trace)] *)
Definition traceRelease : M unit := mret tt.

(** [casgstatus(gp, old, new)]: the status goes from [old] to [new]; the call
    does not return while the status is another one. *)
Definition casgstatus (gp : g) (old new : Gstatus) : M unit := fun w =>
  if decide (gstatus w gp = old) then
    Some (tt, set_gstatus (fun x => if Pos.eqb x gp then new else gstatus w x) w)
  else None.

(** [nanotime()] *)
Definition nanotime : M Z := gets clock.

(** [gcController.findRunnableGCWorker(pp, now)]: the worker that is ready,
    handed out once. *)
Definition findRunnableGCWorker (pp : nat) (now : Z) : M (option g * Z) :=
  r ← gets gc_worker;
  match r with
  | Some gp => modify (set_gc_worker None);; mret (Some gp, now)
  | None => mret (None, now)
  end.

(** ** The [Scheduler] interface *)

(** The six methods of [scheduler.go].  The parameters of type [interface{}]
    are given the types the implementations assert: a [*p] is the index of a
    processor, a [*g] a goroutine; the [pp] of [QueueTask] may be nil.  The
    goroutine results stay interface values. *)
Class Scheduler (S : Type) : Type := {
  NextTask : S -> nat -> m -> M (iface * bool * bool);
  QueueTask : S -> g -> option nat -> bool -> bool -> M unit;
  StealWork : S -> nat -> m -> Z -> M (iface * bool * Z * Z * bool);
  GetFromLocalQueue : S -> nat -> M (iface * bool);
  GetFromGlobalQueue : S -> nat -> M iface;
  CheckGlobalQueue : S -> nat -> M bool
}.

(** ** The default scheduler, [schedulerImpl] *)

(** [type schedulerImpl struct{}] *)
Inductive schedulerImpl : Set := SchedulerImpl.

(** [CheckGlobalQueue]: [pp.schedtick%61 == 0 && !sched.runq.empty()] *)
Definition schedulerImpl_CheckGlobalQueue (s : schedulerImpl) (pp : nat) : M bool :=
  P ← get_p pp;
  e ← sched_runq_empty;
  mret ((schedtick P mod 61 =? 0)%Z && negb e).

(** The loop [for !q.empty() { g := q.pop(); globrunqput(g) }]. *)
Fixpoint repush (q : list g) : M unit :=
  match q with
  | [] => mret tt
  | gp :: q' => globrunqput gp;; repush q'
  end.

(** [len(pp.runq)].  The length of an array is a constant of its type: the
    expression follows no pointer and has its value whatever [pp] points to.
    The number of slots is kept with each processor here, so that rings of a
    few slots can be looked at; for a [pp] that is no processor it is the
    256 slots that the ring has in the runtime. *)
Definition len_runq (pp : nat) : M nat :=
  gets (fun w => match allp w !! pp with
                 | Some P => runq_len P
                 | None => 256
                 end).

(** [GetFromGlobalQueue].  The first [return nil] gives the nil interface;
    the last statement returns the variable [gp] of type [*g].  The
    processor is read for the first time in [runqputbatch]. *)
Definition schedulerImpl_GetFromGlobalQueue (s : schedulerImpl) (pp : nat) : M iface :=
  e ← sched_runq_empty;
  if e : bool then mret inil
  else
    lock_sched;;
    n ← len_runq pp;
    '(gp, q) ← globrunqgetbatch (Z.of_nat n `quot` 2);
    unlock_sched;;
    match gp with
    | Some _ =>
        q' ← runqputbatch pp q;
        match q' with
        | [] => mret tt
        | _ :: _ => lock_sched;; repush q';; unlock_sched
        end
    | None => mret tt
    end;;
    mret (iptr gp).

(** [GetFromLocalQueue]: [return runqget(pp)].  [runqget] is the function of
    [proc.go], with results [(gp *g, inheritTime bool)]; the method declares
    [(gpInterface interface{}, inheritTime bool)].  The [*g] is converted to
    [interface{}] on return: the result has dynamic type [*g], also when
    [runqget] found nothing and the pointer is nil. *)
Definition schedulerImpl_GetFromLocalQueue (s : schedulerImpl) (pp : nat) : M (iface * bool) :=
  '(gp, inheritTime) ← runqget pp;
  mret (iptr gp, inheritTime).

(** [StealWork]: the arguments [pp] and [mp] are not used, [stealWork(now)]
    works for the processor of the calling thread; its first result has type
    [*g]. *)
Definition schedulerImpl_StealWork (s : schedulerImpl) (pp : nat) (mp : m) (now : Z)
  : M (iface * bool * Z * Z * bool) :=
  '(gp, inh, tn, pu, nw) ← stealWork now;
  mret (iptr gp, inh, tn, pu, nw).

(** [QueueTask].  [pp.runnext.cas(old, new)] is the compare-and-swap on the
    run-next slot. *)
Definition runnext_cas (pp : nat) (old new : guintptr) : M bool :=
  P ← get_p pp;
  if decide (runnext P = old) then put_p pp (p_set_runnext new P);; mret true
  else mret false.

Definition schedulerImpl_QueueTask (s : schedulerImpl) (gp : g) (pp : option nat)
  (next local : bool) : M unit :=
  match local, pp with
  | true, Some pp =>
      if next then
        oldnext ← (P ← get_p pp; mret (runnext P));
        swapped ← runnext_cas pp oldnext (guintptr_of gp);
        if negb swapped then runqput pp gp false
        else
          match guintptr_ptr oldnext with
          | Some old => runqput pp old false
          | None => mret tt
          end
      else runqput pp gp false
  | _, _ =>
      lock_sched;;
      globrunqput gp;;
      unlock_sched
  end.

(** The four probes of [NextTask] that come before the local run queue and
    after it, each giving the triple to return when it found a goroutine. *)

(** "Check trace reader" *)
Definition NextTask_traceReader : M (option (iface * bool * bool)) :=
  te ← traceEnabled;
  tsd ← traceShuttingDown;
  if te || tsd then
    gp ← traceReader;
    match gp with
    | Some gp' =>
        ok ← traceAcquire;
        casgstatus gp' Gwaiting Grunnable;;
        (if ok : bool then GoUnpark gp';; traceRelease else mret tt);;
        mret (Some (iptr gp, false, true))
    | None => mret None
    end
  else mret None.

(** "Check GC workers" *)
Definition NextTask_gcWorker (pp : nat) : M (option (iface * bool * bool)) :=
  en ← gets gcBlackenEnabled;
  if negb (en =? 0)%Z then
    now ← nanotime;
    '(gp, _) ← findRunnableGCWorker pp now;
    match gp with
    | Some _ => mret (Some (iptr gp, false, true))
    | None => mret None
    end
  else mret None.

(** [NextTask].  Each [if ... != nil { return ... }] of the body is one
    [or_else].  [checkGlobal], [getGlobal], [getLocal] and [steal] are the
    methods the body calls on its receiver [s], a [*schedulerImpl]. *)
Definition schedulerImpl_NextTask (s : schedulerImpl) (pp : nat) (mp : m)
  : M (iface * bool * bool) :=
  or_else NextTask_traceReader (
  or_else (NextTask_gcWorker pp) (
  (* Check global queue for fairness *)
  or_else (c ← schedulerImpl_CheckGlobalQueue s pp;
           if c : bool then
             gp ← schedulerImpl_GetFromGlobalQueue s pp;
             if iface_nonnil gp then mret (Some (gp, false, false)) else mret None
           else mret None) (
  (* Check local queue *)
  or_else ('(gpInterface, inheritTime) ← schedulerImpl_GetFromLocalQueue s pp;
           if iface_nonnil gpInterface then mret (Some (gpInterface, inheritTime, false))
           else mret None) (
  (* Check global queue again *)
  or_else (gpInterface ← schedulerImpl_GetFromGlobalQueue s pp;
           if iface_nonnil gpInterface then mret (Some (gpInterface, false, false))
           else mret None) (
  (* Try to steal work *)
  or_else (now ← nanotime;
           '(gpInterface, inheritTime, _, _, _) ← schedulerImpl_StealWork s pp mp now;
           if iface_nonnil gpInterface then mret (Some (gpInterface, inheritTime, false))
           else mret None) (
  (* No work available *)
  mret (inil, false, false))))))).

#[global] Instance schedulerImpl_Scheduler : Scheduler schedulerImpl := {
  NextTask := schedulerImpl_NextTask;
  QueueTask := schedulerImpl_QueueTask;
  StealWork := schedulerImpl_StealWork;
  GetFromLocalQueue := schedulerImpl_GetFromLocalQueue;
  GetFromGlobalQueue := schedulerImpl_GetFromGlobalQueue;
  CheckGlobalQueue := schedulerImpl_CheckGlobalQueue
}.

(** ** The example schedulers *)

(** Each of the three embeds [schedulerImpl].  Go promotes the methods of an
    embedded field: a method the outer type does not declare is the method of
    the embedded value, called on the embedded value.  The body of a promoted
    [NextTask] therefore calls [CheckGlobalQueue] of [schedulerImpl], its own
    receiver, not the method the outer type declares. *)

Record priorityScheduler : Set := PriorityScheduler {
  priority_schedulerImpl : schedulerImpl
}.

(** [newPriorityScheduler]: [&priorityScheduler{}] *)
Definition newPriorityScheduler : priorityScheduler := PriorityScheduler SchedulerImpl.

Definition priorityScheduler_CheckGlobalQueue (s : priorityScheduler) (pp : nat) : M bool :=
  P ← get_p pp;
  e ← sched_runq_empty;
  mret ((schedtick P mod 31 =? 0)%Z && negb e).

(** [return s.schedulerImpl.GetFromLocalQueue(ppInterface)] *)
Definition priorityScheduler_GetFromLocalQueue (s : priorityScheduler) (pp : nat)
  : M (iface * bool) :=
  schedulerImpl_GetFromLocalQueue (priority_schedulerImpl s) pp.

#[global] Instance priorityScheduler_Scheduler : Scheduler priorityScheduler := {
  NextTask s := schedulerImpl_NextTask (priority_schedulerImpl s);
  QueueTask s := schedulerImpl_QueueTask (priority_schedulerImpl s);
  StealWork s := schedulerImpl_StealWork (priority_schedulerImpl s);
  GetFromLocalQueue := priorityScheduler_GetFromLocalQueue;
  GetFromGlobalQueue s := schedulerImpl_GetFromGlobalQueue (priority_schedulerImpl s);
  CheckGlobalQueue := priorityScheduler_CheckGlobalQueue
}.

Record fifoScheduler : Set := FifoScheduler {
  fifo_schedulerImpl : schedulerImpl
}.

(** [newFIFOScheduler]: [&fifoScheduler{}] *)
Definition newFIFOScheduler : fifoScheduler := FifoScheduler SchedulerImpl.

Definition fifoScheduler_CheckGlobalQueue (s : fifoScheduler) (pp : nat) : M bool :=
  P ← get_p pp;
  e ← sched_runq_empty;
  mret ((schedtick P mod 127 =? 0)%Z && negb e).

#[global] Instance fifoScheduler_Scheduler : Scheduler fifoScheduler := {
  NextTask s := schedulerImpl_NextTask (fifo_schedulerImpl s);
  QueueTask s := schedulerImpl_QueueTask (fifo_schedulerImpl s);
  StealWork s := schedulerImpl_StealWork (fifo_schedulerImpl s);
  GetFromLocalQueue s := schedulerImpl_GetFromLocalQueue (fifo_schedulerImpl s);
  GetFromGlobalQueue s := schedulerImpl_GetFromGlobalQueue (fifo_schedulerImpl s);
  CheckGlobalQueue := fifoScheduler_CheckGlobalQueue
}.

Record workStealingScheduler : Set := WorkStealingScheduler {
  workStealing_schedulerImpl : schedulerImpl
}.

(** [newWorkStealingScheduler]: [&workStealingScheduler{}] *)
Definition newWorkStealingScheduler : workStealingScheduler :=
  WorkStealingScheduler SchedulerImpl.

Definition workStealingScheduler_CheckGlobalQueue (s : workStealingScheduler) (pp : nat)
  : M bool :=
  P ← get_p pp;
  e ← sched_runq_empty;
  mret ((schedtick P mod 101 =? 0)%Z && negb e).

#[global] Instance workStealingScheduler_Scheduler : Scheduler workStealingScheduler := {
  NextTask s := schedulerImpl_NextTask (workStealing_schedulerImpl s);
  QueueTask s := schedulerImpl_QueueTask (workStealing_schedulerImpl s);
  StealWork s := schedulerImpl_StealWork (workStealing_schedulerImpl s);
  GetFromLocalQueue s := schedulerImpl_GetFromLocalQueue (workStealing_schedulerImpl s);
  GetFromGlobalQueue s := schedulerImpl_GetFromGlobalQueue (workStealing_schedulerImpl s);
  CheckGlobalQueue := workStealingScheduler_CheckGlobalQueue
}.

(** ** Scheduling rounds *)

(** The tick counter is a [uint32]: after [k] more scheduling rounds it holds
    the sum modulo [2^32]. *)
Definition tick_after (t0 : Z) (k : nat) : Z := ((t0 + Z.of_nat k) mod 2 ^ 32)%Z.

(** The tasks an interface value stands for: one or none. *)
Definition iface_tasks (i : iface) : list g := option_list (iface_g i).

(** No injected work is pending: the tracer is off or has no reader to hand
    out, and the collector is not marking or has no worker to hand out. *)
Definition no_injected_work (w : world) : Prop :=
  (trace_enabled w || trace_shutdown w = false ∨ trace_reader w = None) ∧
  (gcBlackenEnabled w = 0%Z ∨ gc_worker w = None).

(** A scheduler that leaves a method to the embedded [schedulerImpl] answers
    as the default scheduler does, with the same effect on the state.  This
    says so for the five methods other than [CheckGlobalQueue]. *)
Definition delegates_to_default {S : Type} `{Scheduler S} (s : S) : Prop :=
  (∀ pp mp w, NextTask s pp mp w = NextTask SchedulerImpl pp mp w) ∧
  (∀ gp pp next local w,
     QueueTask s gp pp next local w = QueueTask SchedulerImpl gp pp next local w) ∧
  (∀ pp mp now w, StealWork s pp mp now w = StealWork SchedulerImpl pp mp now w) ∧
  (∀ pp w, GetFromLocalQueue s pp w = GetFromLocalQueue SchedulerImpl pp w) ∧
  (∀ pp w, GetFromGlobalQueue s pp w = GetFromGlobalQueue SchedulerImpl pp w).

(** Work stealing finds nothing for the calling thread. *)
Definition steals_nothing (w : world) : Prop :=
  fst <$> stealWork (clock w) w = Some (None, false, clock w, 0%Z, false).

(** ** Example states *)

(** A processor with nothing queued, one tick after a multiple of 61, and a
    ring of 256 slots. *)
Definition idle_p : p := mkP 1 0%N [] 256.

(** Two idle processors, the calling thread on the first; an empty global
    queue behind a free lock; the tracer and the collector at rest. *)
Definition idle_world : world :=
  mkWorld (mkSched false []) [idle_p; idle_p] 0 [0; 1] (fun _ => Grunnable)
    false false None [] 0 None 0.

(** The idle world with the one task [7] in the global queue. *)
Definition global_only_world : world := set_sched_runq [7%positive] idle_world.

(** The calling thread on an idle processor; the second processor has the
    tasks [3] and [4] in its ring, of which a thief takes [3]; the task [9]
    sits in the global queue. *)
Definition steal_or_global_world : world :=
  set_sched_runq [9%positive]
    (set_allp [idle_p; mkP 1 0%N [3%positive; 4%positive] 256] idle_world).

(** A processor whose ring of four slots is full, and five tasks in the
    global queue. *)
Definition full_ring_world : world :=
  set_sched_runq [5; 6; 7; 8; 9]%positive
    (set_allp [mkP 1 0%N [1; 2; 3; 4]%positive 4; idle_p] idle_world).

(** The scheduling rounds of the first processor that follow
    [global_only_world], its tick counter going up by one at each, with the
    task [7] in the global queue all along. *)
Definition idle_rounds (k : nat) : world :=
  set_allp [p_set_schedtick (tick_after (schedtick idle_p) k) idle_p; idle_p]
    global_only_world.

(** The first processor with the task [1] in its run-next slot. *)
Definition runnext_taken_world : world :=
  set_allp [mkP 1 (guintptr_of 1%positive) [] 256; idle_p] idle_world.

(** ** The tasks in the queues *)

(** The goroutines a processor holds: the one in its run-next slot, if any,
    then those of its ring. *)
Definition p_tasks (P : p) : list g :=
  option_list (guintptr_ptr (runnext P)) ++ runq P.

(** The goroutines queued anywhere: on the processors, in their order in
    [allp], then in the global run queue. *)
Definition queued_tasks (w : world) : list g :=
  concat (p_tasks <$> allp w) ++ sched_runq (sched w).

(** No ring holds more goroutines than it has slots. *)
Definition rings_bounded (w : world) : Prop :=
  Forall (fun P => length (runq P) ≤ runq_len P) (allp w).


(** ** The scheduler in use *)

(** A value of the interface type [Scheduler]: nil, or a pointer to a value
    of one of the four types of the package that implement it. *)
Inductive SchedulerValue : Set :=
  | nilScheduler
  | ptr_schedulerImpl (s : schedulerImpl)
  | ptr_priorityScheduler (s : priorityScheduler)
  | ptr_fifoScheduler (s : fifoScheduler)
  | ptr_workStealingScheduler (s : workStealingScheduler).

(** A method called on an interface value is the method of the type of the
    value it holds; on the nil interface the call panics. *)
#[global] Instance SchedulerValue_Scheduler : Scheduler SchedulerValue := {
  NextTask v :=
    match v with
    | nilScheduler => fun _ _ _ => None
    | ptr_schedulerImpl s => NextTask s
    | ptr_priorityScheduler s => NextTask s
    | ptr_fifoScheduler s => NextTask s
    | ptr_workStealingScheduler s => NextTask s
    end;
  QueueTask v :=
    match v with
    | nilScheduler => fun _ _ _ _ _ => None
    | ptr_schedulerImpl s => QueueTask s
    | ptr_priorityScheduler s => QueueTask s
    | ptr_fifoScheduler s => QueueTask s
    | ptr_workStealingScheduler s => QueueTask s
    end;
  StealWork v :=
    match v with
    | nilScheduler => fun _ _ _ _ => None
    | ptr_schedulerImpl s => StealWork s
    | ptr_priorityScheduler s => StealWork s
    | ptr_fifoScheduler s => StealWork s
    | ptr_workStealingScheduler s => StealWork s
    end;
  GetFromLocalQueue v :=
    match v with
    | nilScheduler => fun _ _ => None
    | ptr_schedulerImpl s => GetFromLocalQueue s
    | ptr_priorityScheduler s => GetFromLocalQueue s
    | ptr_fifoScheduler s => GetFromLocalQueue s
    | ptr_workStealingScheduler s => GetFromLocalQueue s
    end;
  GetFromGlobalQueue v :=
    match v with
    | nilScheduler => fun _ _ => None
    | ptr_schedulerImpl s => GetFromGlobalQueue s
    | ptr_priorityScheduler s => GetFromGlobalQueue s
    | ptr_fifoScheduler s => GetFromGlobalQueue s
    | ptr_workStealingScheduler s => GetFromGlobalQueue s
    end;
  CheckGlobalQueue v :=
    match v with
    | nilScheduler => fun _ _ => None
    | ptr_schedulerImpl s => CheckGlobalQueue s
    | ptr_priorityScheduler s => CheckGlobalQueue s
    | ptr_fifoScheduler s => CheckGlobalQueue s
    | ptr_workStealingScheduler s => CheckGlobalQueue s
    end
}.

(** The three constructors return their pointer as a [Scheduler]. *)
Definition newPriorityScheduler_Scheduler : SchedulerValue :=
  ptr_priorityScheduler newPriorityScheduler.
Definition newFIFOScheduler_Scheduler : SchedulerValue :=
  ptr_fifoScheduler newFIFOScheduler.
Definition newWorkStealingScheduler_Scheduler : SchedulerValue :=
  ptr_workStealingScheduler newWorkStealingScheduler.

(** The modulus of the check of the scheduler a value points to. *)
Definition check_modulus (v : SchedulerValue) : option Z :=
  match v with
  | nilScheduler => None
  | ptr_schedulerImpl _ => Some 61%Z
  | ptr_priorityScheduler _ => Some 31%Z
  | ptr_fifoScheduler _ => Some 127%Z
  | ptr_workStealingScheduler _ => Some 101%Z
  end.

(** ** More example states *)

(** The idle world with the tracer on and its reader, goroutine [11], waiting
    to be resumed; the task [7] sits in the global queue. *)
Definition tracing_world : world :=
  mkWorld (mkSched false [7%positive]) [idle_p; idle_p] 0 [0; 1]
    (fun x => if Pos.eqb x 11 then Gwaiting else Grunnable)
    true false (Some 11%positive) [] 0 None 0.

(** The idle world during the mark phase, with the collector worker [12]
    ready; the task [7] sits in the global queue. *)
Definition marking_world : world :=
  mkWorld (mkSched false [7%positive]) [idle_p; idle_p] 0 [0; 1] (fun _ => Grunnable)
    false false None [] 1 (Some 12%positive) 0.

(** The first processor at tick 61 with the task [1] in its run-next slot and
    the tasks [2] and [3] in its ring; the tasks [5] and [6] in the global
    queue. *)
Definition fairness_world : world :=
  set_sched_runq [5; 6]%positive
    (set_allp [mkP 61 (guintptr_of 1%positive) [2; 3]%positive 256; idle_p] idle_world).

(** [fairness_world] after the first processor took the task [5] from the
    global queue, the task [6] refilling its ring. *)
Definition fairness_world_after : world :=
  set_sched_runq []
    (set_allp [mkP 61 (guintptr_of 1%positive) [2; 3; 6]%positive 256; idle_p]
       fairness_world).

(** [full_ring_world] after the task [10] was pushed onto the full ring: the
    older half of the ring and the task are at the back of the global queue. *)
Definition full_ring_world_spilled : world :=
  set_sched_runq [5; 6; 7; 8; 9; 1; 2; 10]%positive
    (set_allp [mkP 1 0%N [3; 4]%positive 4; idle_p] full_ring_world).

(** [runnext_taken_world] after the task [2] took the run-next slot from the
    task [1]. *)
Definition runnext_replaced_world : world :=
  set_allp [mkP 1 (guintptr_of 2%positive) [1%positive] 256; idle_p] runnext_taken_world.

(** The first processor with the task [1] in its run-next slot and a full
    ring of four slots; nothing in the global queue. *)
Definition full_ring_runnext_world : world :=
  set_allp [mkP 1 (guintptr_of 1%positive) [2; 3; 4; 5]%positive 4; idle_p] idle_world.

(** [full_ring_runnext_world] after the task [9] took the run-next slot from
    the task [1]: the older half of the ring and the task [1] are in the
    global queue. *)
Definition full_ring_runnext_world_spilled : world :=
  set_sched_runq [2; 3; 1]%positive
    (set_allp [mkP 1 (guintptr_of 9%positive) [4; 5]%positive 4; idle_p]
       full_ring_runnext_world).

(** ** Runs of calls that do not overlap *)

(** The thread that runs is bound to the processor [i]. *)
Definition set_getg_p (i : nat) (w : world) : world :=
  mkWorld (sched w) (allp w) i (stealOrder w) (gstatus w) (trace_enabled w)
    (trace_shutdown w) (trace_reader w) (trace_log w) (gcBlackenEnabled w)
    (gc_worker w) (clock w).

(** A call for work: the worker thread bound to the processor [pp] calls
    [NextTask] or [StealWork]. *)
Inductive call : Set :=
  | call_NextTask (pp : nat) (mp : m)
  | call_StealWork (pp : nat) (mp : m) (now : Z).

(** The processor of the thread that makes the call. *)
Definition call_p (c : call) : nat :=
  match c with
  | call_NextTask pp _ => pp
  | call_StealWork pp _ _ => pp
  end.

(** One call, made by a thread that runs on [call_p c], so that [getg().m.p]
    is that processor while the call runs; the result is the value handed
    back as the goroutine to run. *)
Definition do_call (s : schedulerImpl) (c : call) : M iface :=
  modify (set_getg_p (call_p c));;
  match c with
  | call_NextTask pp mp =>
      '(gp, _, _) ← schedulerImpl_NextTask s pp mp; mret gp
  | call_StealWork pp mp now =>
      '(gp, _, _, _, _) ← schedulerImpl_StealWork s pp mp now; mret gp
  end.

(** The calls of a list one after the other, each starting when the one
    before it has returned; the values they hand back, in this order. *)
Fixpoint do_calls (s : schedulerImpl) (cs : list call) : M (list iface) :=
  match cs with
  | [] => mret []
  | c :: cs' =>
      r ← do_call s c;
      rs ← do_calls s cs';
      mret (r :: rs)
  end.

(** * Properties *)

(** ** Running a call step by step *)

(** A method called on a scheduler of a known type is the function the
    instance of that type gives. *)
Ltac methods :=
  cbn [NextTask QueueTask StealWork GetFromLocalQueue GetFromGlobalQueue CheckGlobalQueue
       schedulerImpl_Scheduler priorityScheduler_Scheduler fifoScheduler_Scheduler
       workStealingScheduler_Scheduler] in *.

(** The updates of a [world] mention the old state once per field: they are
    reduced with sharing, never unfolded in place. *)
Ltac world_simpl :=
  lazy beta iota delta
    [set_sched_runq set_lock set_sched set_allp set_gstatus set_trace_reader
     set_trace_log set_gc_worker sched allp getg_p stealOrder gstatus trace_enabled
     trace_shutdown trace_reader trace_log gcBlackenEnabled gc_worker clock
     sched_lock sched_runq].

Lemma bind_Some {A B : Type} (c : M A) (f : A -> M B) (w w' : world) (a : A) :
  c w = Some (a, w') -> (c ≫= f) w = f a w'.
Proof. intros H. unfold mbind, M_bind. now rewrite H. Qed.

Lemma or_else_found {A : Type} (c : M (option A)) (k : M A) (w w' : world) (a : A) :
  c w = Some (Some a, w') -> or_else c k w = Some (a, w').
Proof. intros H. unfold or_else. now rewrite (bind_Some _ _ _ _ _ H). Qed.

Lemma or_else_next {A : Type} (c : M (option A)) (k : M A) (w w' : world) :
  c w = Some (None, w') -> or_else c k w = k w'.
Proof. intros H. unfold or_else. now rewrite (bind_Some _ _ _ _ _ H). Qed.

Lemma get_p_Some (pp : nat) (P : p) (w : world) :
  allp w !! pp = Some P -> get_p pp w = Some (P, w).
Proof. intros H. unfold get_p. now rewrite H. Qed.

Lemma sched_runq_empty_spec (w : world) :
  sched_runq_empty w = Some (bool_decide (sched_runq (sched w) = []), w).
Proof. unfold sched_runq_empty, gets. now destruct (sched_runq (sched w)). Qed.

(** ** The cadence of the global-queue check *)

(** A check every [n] ticks: the shape shared by the four policies. *)
Lemma check_every (n : Z) (pp : nat) (P : p) (w : world) :
  allp w !! pp = Some P ->
  (P ← get_p pp; e ← sched_runq_empty; mret ((schedtick P mod n =? 0)%Z && negb e)) w
  = Some (bool_decide ((schedtick P mod n = 0)%Z ∧ sched_runq (sched w) ≠ []), w).
Proof.
  intros HP.
  rewrite (bind_Some _ _ _ _ _ (get_p_Some _ _ _ HP)).
  rewrite (bind_Some _ _ _ _ _ (sched_runq_empty_spec w)).
  unfold mret, M_ret. do 2 f_equal.
  destruct (Z.eqb_spec (schedtick P mod n) 0) as [Ht|Ht];
    destruct (sched_runq (sched w)) as [|x q]; simpl.
  - rewrite bool_decide_eq_false_2; [done|]. intros [_ Hq]. now apply Hq.
  - rewrite bool_decide_eq_true_2; [done|]. split; [done|discriminate].
  - rewrite bool_decide_eq_false_2; [done|]. intros [Hc _]. now apply Ht.
  - rewrite bool_decide_eq_false_2; [done|]. intros [Hc _]. now apply Ht.
Qed.


(** ** Taking from the global queue *)

(** The tasks that did not fit go back to the global queue in their order. *)
Lemma repush_spec (q : list g) (w : world) :
  sched_lock (sched w) = true ->
  repush q w = Some (tt, set_sched_runq (sched_runq (sched w) ++ q) w).
Proof.
  revert w. induction q as [|x q IH]; intros w Hl.
  - destruct w as [[lk gq] ps me so gs te ts tr tl ge gw ck]. simpl in *.
    unfold set_sched_runq, set_sched. simpl. now rewrite app_nil_r.
  - simpl.
    assert (Hput : globrunqput x w = Some (tt, set_sched_runq (sched_runq (sched w) ++ [x]) w)).
    { unfold globrunqput, assertLockHeld_sched, mbind, M_bind, modify. now rewrite Hl. }
    rewrite (bind_Some _ _ _ _ _ Hput).
    rewrite IH by (simpl; exact Hl).
    destruct w as [[lk gq] ps me so gs te ts tr tl ge gw ck]. simpl in *.
    unfold set_sched_runq, set_sched. simpl. now rewrite <- app_assoc.
Qed.

Lemma p_set_runq_same (P : p) : p_set_runq (runq P) P = P.
Proof. now destruct P. Qed.

(** The state after [GetFromGlobalQueue] on a queue that is not empty: the
    head is returned, up to half a ring less one refill the local ring as far
    as it has free slots, and the rest of the batch is back in the queue. *)
Lemma GetFromGlobalQueue_nonempty (s : schedulerImpl) (pp : nat) (P : p) (w : world)
    (gp : g) (rest : list g) :
  allp w !! pp = Some P ->
  sched_lock (sched w) = false ->
  sched_runq (sched w) = gp :: rest ->
  let k := Z.to_nat (Z.of_nat (runq_len P) `quot` 2 - 1) in
  let room := runq_len P - length (runq P) in
  schedulerImpl_GetFromGlobalQueue s pp w
  = Some (iptr (Some gp),
          set_sched_runq (drop k rest ++ drop room (take k rest))
            (set_allp (<[pp := p_set_runq (runq P ++ take room (take k rest)) P]> (allp w)) w)).
Proof.
  intros HP Hl Hq k room.
  destruct w as [[lk gq] ps me so gs te ts tr tl ge gw ck].
  cbn [sched sched_lock sched_runq allp] in HP, Hl, Hq. subst lk gq.
  unfold schedulerImpl_GetFromGlobalQueue, sched_runq_empty, lock_sched, unlock_sched,
    globrunqgetbatch, len_runq, assertLockHeld_sched, gets, modify,
    mbind, M_bind, mret, M_ret.
  world_simpl. rewrite HP. fold k.
  destruct (take k rest) as [|x q] eqn:Hb.
  - (* nothing behind the head was popped: the processor is not touched *)
    cbn [runqputbatch]. unfold mret, M_ret.
    rewrite drop_nil, take_nil, !app_nil_r, p_set_runq_same.
    world_simpl. rewrite (list_insert_id _ _ _ HP). reflexivity.
  - unfold runqputbatch, get_p, put_p, modify, mbind, M_bind, mret, M_ret.
    world_simpl. rewrite HP. fold room.
    destruct (drop room (x :: q)) as [|y q'] eqn:Hd.
    + world_simpl. now rewrite app_nil_r.
    + change (globrunqput y ≫= λ _ : (), repush q') with (repush (y :: q')).
      unfold mbind, M_bind. world_simpl.
      rewrite repush_spec by reflexivity.
      world_simpl. reflexivity.
Qed.

Lemma GetFromGlobalQueue_empty (s : schedulerImpl) (pp : nat) (w : world) :
  sched_runq (sched w) = [] ->
  schedulerImpl_GetFromGlobalQueue s pp w = Some (inil, w).
Proof.
  intros Hq. unfold schedulerImpl_GetFromGlobalQueue.
  rewrite (bind_Some _ _ _ _ _ (sched_runq_empty_spec w)).
  now rewrite bool_decide_eq_true_2.
Qed.

Lemma half_ring_batch (n : nat) :
  2 ≤ n -> S (Z.to_nat (Z.of_nat n `quot` 2 - 1)) = n / 2.
Proof.
  intros Hn.
  rewrite Z.quot_div_nonneg by lia.
  change 2%Z with (Z.of_nat 2). rewrite <- Nat2Z.inj_div.
  assert (1 ≤ n / 2) by (apply (Nat.div_le_lower_bound n 2 1); lia).
  lia.
Qed.

(** C7. [GetFromGlobalQueue] loses no task.  Called for an existing processor
    while [sched.lock] is free, it returns; the tasks it popped from the head
    of the global queue (at most half the slots of the local ring) are, in
    this order, the task it returns, the tasks it placed at the back of the
    local ring and the tasks that did not fit, which it pushed back onto the
    global queue.  The tasks returned or queued after the call are those
    queued before it, each as many times; no other processor and no run-next
    slot changes, and the lock is free again. *)
Theorem GetFromGlobalQueue_loses_no_task (s : schedulerImpl) (pp : nat) (P : p) (w : world) :
  allp w !! pp = Some P ->
  sched_lock (sched w) = false ->
  ∃ (r : iface) (w' : world) (batch rest placed back : list g),
    GetFromGlobalQueue s pp w = Some (r, w') ∧
    sched_runq (sched w) = batch ++ rest ∧
    batch = iface_tasks r ++ placed ++ back ∧
    (2 ≤ runq_len P -> length batch ≤ runq_len P / 2) ∧
    allp w' !! pp = Some (p_set_runq (runq P ++ placed) P) ∧
    sched_runq (sched w') = rest ++ back ∧
    (∀ j : nat, j ≠ pp -> allp w' !! j = allp w !! j) ∧
    sched_lock (sched w') = false ∧
    iface_tasks r ++ (runq P ++ placed) ++ sched_runq (sched w')
      ≡ₚ runq P ++ sched_runq (sched w).
Proof.
  intros HP Hl. methods.
  destruct (sched_runq (sched w)) as [|gp q0] eqn:Hq.
  - exists inil, w, [], [], [], [].
    rewrite (GetFromGlobalQueue_empty s pp w Hq).
    cbn [iface_tasks iface_g option_list app length].
    rewrite !app_nil_r, p_set_runq_same, Hq.
    repeat split; auto; [lia|].
    cbn [iface_tasks iface_g option_list app]. now rewrite app_nil_r.
  - pose (k := Z.to_nat (Z.of_nat (runq_len P) `quot` 2 - 1)).
    pose (room := runq_len P - length (runq P)).
    assert (Hlen : pp < length (allp w)) by (eapply lookup_lt_Some; eauto).
    eexists (iptr (Some gp)), _, (gp :: take k q0), (drop k q0),
      (take room (take k q0)), (drop room (take k q0)).
    split; [apply (GetFromGlobalQueue_nonempty s pp P w gp q0 HP Hl Hq)|].
    fold k room.
    cbn [allp sched sched_runq sched_lock set_sched_runq set_allp set_sched
         iface_tasks iface_g option_list app].
    repeat split.
    + now rewrite take_drop.
    + now rewrite take_drop.
    + intros Hn. cbn [length]. rewrite length_take.
      pose proof (half_ring_batch _ Hn) as Hhalf. fold k in Hhalf. lia.
    + now apply list_lookup_insert_eq.
    + intros j Hj. now apply list_lookup_insert_ne.
    + exact Hl.
    + rewrite <- (take_drop k q0) at 4.
      rewrite <- (take_drop room (take k q0)) at 3.
      solve_Permutation.
Qed.

(** ** The fairness check of the default policy *)

Lemma schedulerImpl_CheckGlobalQueue_decide (s : schedulerImpl) (pp : nat) (P : p) (w : world) :
  allp w !! pp = Some P ->
  schedulerImpl_CheckGlobalQueue s pp w
  = Some (bool_decide ((schedtick P mod 61 = 0)%Z ∧ sched_runq (sched w) ≠ []), w).
Proof. apply check_every. Qed.

(** The two probes for injected work find nothing and change nothing when
    none is pending. *)
Lemma NextTask_traceReader_none (w : world) :
  trace_enabled w || trace_shutdown w = false ∨ trace_reader w = None ->
  NextTask_traceReader w = Some (None, w).
Proof.
  intros H. unfold NextTask_traceReader, traceEnabled, traceShuttingDown, traceReader,
    gets, mbind, M_bind, mret, M_ret.
  destruct (trace_enabled w || trace_shutdown w) eqn:E; [|done].
  destruct H as [H|H]; [done|]. now rewrite H.
Qed.

Lemma NextTask_gcWorker_none (pp : nat) (w : world) :
  gcBlackenEnabled w = 0%Z ∨ gc_worker w = None ->
  NextTask_gcWorker pp w = Some (None, w).
Proof.
  intros H. unfold NextTask_gcWorker, nanotime, findRunnableGCWorker,
    gets, mbind, M_bind, mret, M_ret.
  destruct (Z.eqb_spec (gcBlackenEnabled w) 0) as [E|E]; simpl; [done|].
  destruct H as [H|H]; [done|]. now rewrite H.
Qed.

(** What [NextTask] does when no injected work is pending and the fairness
    check holds: it takes the head of the global queue. *)
Lemma NextTask_fairness_hit (s : schedulerImpl) (pp : nat) (mp : m) (P : p) (w : world)
    (gp : g) (rest : list g) :
  allp w !! pp = Some P ->
  no_injected_work w ->
  sched_lock (sched w) = false ->
  sched_runq (sched w) = gp :: rest ->
  (schedtick P mod 61 = 0)%Z ->
  ∃ w', schedulerImpl_GetFromGlobalQueue s pp w = Some (iptr (Some gp), w') ∧
        schedulerImpl_NextTask s pp mp w = Some ((iptr (Some gp), false, false), w').
Proof.
  intros HP [Ht Hg] Hl Hq Hk. unfold schedulerImpl_NextTask.
  rewrite (or_else_next _ _ _ _ (NextTask_traceReader_none w Ht)).
  rewrite (or_else_next _ _ _ _ (NextTask_gcWorker_none pp w Hg)).
  eexists. split; [apply (GetFromGlobalQueue_nonempty s pp P w gp rest HP Hl Hq)|].
  apply or_else_found.
  rewrite (bind_Some _ _ _ _ _ (schedulerImpl_CheckGlobalQueue_decide s pp P w HP)).
  rewrite bool_decide_eq_true_2 by (split; [done|now rewrite Hq]).
  rewrite (bind_Some _ _ _ _ _ (GetFromGlobalQueue_nonempty s pp P w gp rest HP Hl Hq)).
  reflexivity.
Qed.


(** C5. The three example policies check the global queue on another cadence
    than the default, and differ from it in nothing else: [CheckGlobalQueue]
    of [priorityScheduler] is true exactly when the tick counter is a multiple
    of 31 and the global queue is not empty, that of [fifoScheduler] with 127
    and that of [workStealingScheduler] with 101, none of them changing the
    state; on the five other methods each of the three answers as the
    default scheduler does. *)
Theorem example_policies_CheckGlobalQueue (pp : nat) (P : p) (w : world) :
  allp w !! pp = Some P ->
  (∀ s : priorityScheduler, ∃ b : bool,
     CheckGlobalQueue s pp w = Some (b, w) ∧
     (b = true ↔ (schedtick P mod 31 = 0)%Z ∧ sched_runq (sched w) ≠ [])) ∧
  (∀ s : fifoScheduler, ∃ b : bool,
     CheckGlobalQueue s pp w = Some (b, w) ∧
     (b = true ↔ (schedtick P mod 127 = 0)%Z ∧ sched_runq (sched w) ≠ [])) ∧
  (∀ s : workStealingScheduler, ∃ b : bool,
     CheckGlobalQueue s pp w = Some (b, w) ∧
     (b = true ↔ (schedtick P mod 101 = 0)%Z ∧ sched_runq (sched w) ≠ [])) ∧
  (∀ s : priorityScheduler, delegates_to_default s) ∧
  (∀ s : fifoScheduler, delegates_to_default s) ∧
  (∀ s : workStealingScheduler, delegates_to_default s).
Proof.
  intros HP.
  split; [|split; [|split]];
    try (intros s; eexists;
         (split; [apply (check_every _ pp P w HP)|apply bool_decide_eq_true])).
  split; [|split]; intros [[]]; repeat split.
Qed.

(** ** Admitting a task *)

Lemma put_p_spec (pp : nat) (P : p) (w : world) :
  put_p pp P w = Some (tt, set_allp (<[pp := P]> (allp w)) w).
Proof. reflexivity. Qed.

Lemma runq_push_room (pp : nat) (P : p) (gp : g) (w : world) :
  allp w !! pp = Some P ->
  length (runq P) < runq_len P ->
  runq_push pp gp w = Some (tt, set_allp (<[pp := p_set_runq (runq P ++ [gp]) P]> (allp w)) w).
Proof.
  intros HP Hroom. unfold runq_push.
  rewrite (bind_Some _ _ _ _ _ (get_p_Some _ _ _ HP)).
  now rewrite decide_True.
Qed.

Lemma runq_push_full (pp : nat) (P : p) (gp : g) (w : world) :
  allp w !! pp = Some P ->
  ¬ length (runq P) < runq_len P ->
  sched_lock (sched w) = false ->
  runq_push pp gp w
  = Some (tt, set_sched_runq
                (sched_runq (sched w) ++ take (length (runq P) / 2) (runq P) ++ [gp])
                (set_allp (<[pp := p_set_runq (drop (length (runq P) / 2) (runq P)) P]>
                             (allp w)) w)).
Proof.
  intros HP Hfull Hl. unfold runq_push.
  rewrite (bind_Some _ _ _ _ _ (get_p_Some _ _ _ HP)).
  rewrite decide_False by exact Hfull.
  destruct w as [[lk gq] ps me so gs te ts tr tl ge gw ck].
  cbn [sched sched_lock] in Hl. subst lk.
  unfold lock_sched, unlock_sched, globrunqputbatch, assertLockHeld_sched, put_p, modify,
    mbind, M_bind.
  world_simpl. reflexivity.
Qed.

(** The run-next branch of [QueueTask]: the compare-and-swap sees the value
    that was just read, so it stores the new task, and what is left to do is
    to queue the task that was in the slot. *)
Lemma QueueTask_next_swaps (s : schedulerImpl) (gp : g) (pp : nat) (P : p) (w : world) :
  allp w !! pp = Some P ->
  schedulerImpl_QueueTask s gp (Some pp) true true w
  = match guintptr_ptr (runnext P) with
    | Some old => runq_push pp old
    | None => mret tt
    end (set_allp (<[pp := p_set_runnext (guintptr_of gp) P]> (allp w)) w).
Proof.
  intros HP. unfold schedulerImpl_QueueTask, runnext_cas.
  unfold mbind at 1, M_bind at 1.
  rewrite (bind_Some _ _ _ _ _ (get_p_Some _ _ _ HP)).
  unfold mret at 1, M_ret at 1.
  unfold mbind at 1, M_bind at 1.
  rewrite (bind_Some _ _ _ _ _ (get_p_Some _ _ _ HP)).
  rewrite decide_True by reflexivity.
  unfold mbind at 1, M_bind at 1. rewrite put_p_spec.
  unfold mret at 1, M_ret at 1. simpl negb. cbv iota.
  unfold runqput. now destruct (guintptr_ptr (runnext P)).
Qed.

(** A push onto a full ring waits for [sched.lock]. *)
Lemma runq_push_full_locked (pp : nat) (P : p) (gp : g) (w : world) :
  allp w !! pp = Some P ->
  ¬ length (runq P) < runq_len P ->
  sched_lock (sched w) = true ->
  runq_push pp gp w = None.
Proof.
  intros HP Hfull Hl. unfold runq_push.
  rewrite (bind_Some _ _ _ _ _ (get_p_Some _ _ _ HP)).
  rewrite decide_False by exact Hfull.
  unfold put_p, modify, lock_sched, mbind, M_bind.
  cbn [sched sched_lock set_allp]. now rewrite Hl.
Qed.

(** [QueueTask] with [next] on a slot that holds the task [old]: where [old]
    goes depends on the ring. *)
Lemma QueueTask_next_room (s : schedulerImpl) (gp old : g) (pp : nat) (P : p) (w : world) :
  allp w !! pp = Some P ->
  runnext P = guintptr_of old ->
  length (runq P) < runq_len P ->
  schedulerImpl_QueueTask s gp (Some pp) true true w
  = Some (tt, set_allp (<[pp := mkP (schedtick P) (guintptr_of gp) (runq P ++ [old])
                                   (runq_len P)]> (allp w)) w).
Proof.
  intros HP Hold Hroom.
  assert (Hlen : pp < length (allp w)) by (eapply lookup_lt_Some; eauto).
  rewrite (QueueTask_next_swaps s gp pp P w HP), Hold. simpl guintptr_ptr. cbv iota.
  rewrite (runq_push_room pp (p_set_runnext (guintptr_of gp) P) old).
  - simpl. rewrite list_insert_insert_eq. reflexivity.
  - simpl. now apply list_lookup_insert_eq.
  - exact Hroom.
Qed.

Lemma QueueTask_next_full (s : schedulerImpl) (gp old : g) (pp : nat) (P : p) (w : world) :
  allp w !! pp = Some P ->
  runnext P = guintptr_of old ->
  runq_len P ≤ length (runq P) ->
  sched_lock (sched w) = false ->
  schedulerImpl_QueueTask s gp (Some pp) true true w
  = Some (tt, set_sched_runq
                (sched_runq (sched w) ++ take (length (runq P) / 2) (runq P) ++ [old])
                (set_allp (<[pp := mkP (schedtick P) (guintptr_of gp)
                                     (drop (length (runq P) / 2) (runq P)) (runq_len P)]>
                             (allp w)) w)).
Proof.
  intros HP Hold Hfull Hl.
  assert (Hlen : pp < length (allp w)) by (eapply lookup_lt_Some; eauto).
  rewrite (QueueTask_next_swaps s gp pp P w HP), Hold. simpl guintptr_ptr. cbv iota.
  rewrite (runq_push_full pp (p_set_runnext (guintptr_of gp) P) old).
  - simpl. rewrite list_insert_insert_eq. reflexivity.
  - simpl. now apply list_lookup_insert_eq.
  - simpl. lia.
  - exact Hl.
Qed.

(** C3, as the claim has it, fails: with [local] set and a processor given
    the task does not always end in the local run queue of that processor.
    Here the ring of the first processor is full: [QueueTask] with [next]
    false moves the older half of the ring and the new task [10] to the
    global queue, and the task is not on the processor afterwards. *)
Lemma QueueTask_local_full_ring_goes_global :
  allp full_ring_world !! 0 = Some (mkP 1 0%N [1; 2; 3; 4]%positive 4) ∧
  sched_runq (sched full_ring_world) = [5; 6; 7; 8; 9]%positive ∧
  QueueTask SchedulerImpl 10%positive (Some 0) false true full_ring_world
    = Some (tt, full_ring_world_spilled) ∧
  allp full_ring_world_spilled !! 0 = Some (mkP 1 0%N [3; 4]%positive 4) ∧
  sched_runq (sched full_ring_world_spilled) = [5; 6; 7; 8; 9; 1; 2; 10]%positive ∧
  ¬ (∃ (w' : world) (P' : p),
       QueueTask SchedulerImpl 10%positive (Some 0) false true full_ring_world
         = Some (tt, w') ∧
       allp w' !! 0 = Some P' ∧ 10%positive ∈ p_tasks P').
Proof.
  repeat split; try reflexivity.
  intros (w' & P' & Hcall & HP' & Hin).
  injection Hcall as <-. injection HP' as <-.
  apply list_elem_of_In in Hin. simpl in Hin.
  destruct Hin as [Hin|[Hin|[]]]; discriminate Hin.
Qed.

(** C3, amended.  [QueueTask] hands the task to the push of the local run
    queue of the processor it is given, [runqput] with the same [next],
    exactly when [local] is set and the processor is not nil.  Where the task
    then ends: with [next] false, at the back of the ring when the ring has a
    free slot, and in the global queue, behind the older half of the ring,
    when the ring is full (the call needs [sched.lock] for that); with [next]
    set, in the run-next slot, the task that was in the slot going to the
    back of the ring or, when the ring is full, to the global queue behind
    the older half of the ring.  In every other case no processor is touched
    and the task is pushed to the back of the global run queue inside the
    critical section of [sched.lock]: the call takes the lock, so it does
    not go on while the lock is held, and leaves it free. *)
Theorem QueueTask_placement (s : schedulerImpl) (gp : g) (pp : option nat)
    (next local : bool) (w : world) :
  (∀ i : nat, local = true -> pp = Some i ->
     QueueTask s gp pp next local w = runqput i gp next w) ∧
  (∀ (i : nat) (P : p), local = true -> pp = Some i -> allp w !! i = Some P ->
     (next = false ->
        (length (runq P) < runq_len P ->
           QueueTask s gp pp next local w
           = Some (tt, set_allp (<[i := p_set_runq (runq P ++ [gp]) P]> (allp w)) w)) ∧
        (runq_len P ≤ length (runq P) -> sched_lock (sched w) = false ->
           QueueTask s gp pp next local w
           = Some (tt, set_sched_runq
                         (sched_runq (sched w) ++
                            take (length (runq P) / 2) (runq P) ++ [gp])
                         (set_allp (<[i := p_set_runq (drop (length (runq P) / 2) (runq P))
                                              P]> (allp w)) w))) ∧
        (runq_len P ≤ length (runq P) -> sched_lock (sched w) = true ->
           QueueTask s gp pp next local w = None)) ∧
     (next = true ->
        (runnext P = 0%N ->
           QueueTask s gp pp next local w
           = Some (tt, set_allp (<[i := p_set_runnext (guintptr_of gp) P]> (allp w)) w)) ∧
        (∀ old : g, runnext P = guintptr_of old -> length (runq P) < runq_len P ->
           QueueTask s gp pp next local w
           = Some (tt, set_allp (<[i := mkP (schedtick P) (guintptr_of gp)
                                            (runq P ++ [old]) (runq_len P)]> (allp w)) w)) ∧
        (∀ old : g, runnext P = guintptr_of old -> runq_len P ≤ length (runq P) ->
           sched_lock (sched w) = false ->
           QueueTask s gp pp next local w
           = Some (tt, set_sched_runq
                         (sched_runq (sched w) ++
                            take (length (runq P) / 2) (runq P) ++ [old])
                         (set_allp (<[i := mkP (schedtick P) (guintptr_of gp)
                                              (drop (length (runq P) / 2) (runq P))
                                              (runq_len P)]> (allp w)) w))))) ∧
  (local = false ∨ pp = None ->
     QueueTask s gp pp next local w = (lock_sched;; globrunqput gp;; unlock_sched) w ∧
     (sched_lock (sched w) = true -> QueueTask s gp pp next local w = None) ∧
     (sched_lock (sched w) = false ->
        QueueTask s gp pp next local w
        = Some (tt, set_sched_runq (sched_runq (sched w) ++ [gp]) w))).
Proof.
  split; [|split].
  - intros i -> ->. methods. destruct next; [|reflexivity].
    destruct (allp w !! i) as [P|] eqn:HP.
    + rewrite (QueueTask_next_swaps s gp i P w HP).
      unfold runqput.
      rewrite (bind_Some _ _ _ _ _ (get_p_Some _ _ _ HP)).
      unfold mbind, M_bind. rewrite put_p_spec. reflexivity.
    + unfold schedulerImpl_QueueTask, runqput, get_p, mbind, M_bind. now rewrite HP.
  - intros i P -> -> HP. methods. split.
    + intros ->.
      change (schedulerImpl_QueueTask s gp (Some i) false true w) with (runq_push i gp w).
      split; [|split].
      * intros Hroom. now apply runq_push_room.
      * intros Hfull Hl. apply runq_push_full; [exact HP|lia|exact Hl].
      * intros Hfull Hl. apply (runq_push_full_locked i P); [exact HP|lia|exact Hl].
    + intros ->. split; [|split].
      * intros Hnext. rewrite (QueueTask_next_swaps s gp i P w HP), Hnext. reflexivity.
      * intros old. now apply QueueTask_next_room.
      * intros old. now apply QueueTask_next_full.
  - intros Hglobal.
    assert (Hcall : QueueTask s gp pp next local w
                    = (lock_sched;; globrunqput gp;; unlock_sched) w).
    { methods. unfold schedulerImpl_QueueTask.
      destruct Hglobal as [-> | ->]; [reflexivity|]. now destruct local. }
    rewrite Hcall. split; [reflexivity|].
    unfold lock_sched, unlock_sched, globrunqput, assertLockHeld_sched, modify,
      mbind, M_bind.
    split; intros Hl; rewrite Hl; [reflexivity|].
    destruct w as [[lk gq] ps me so gs te ts tr tl ge gw ck]. simpl in *. now subst lk.
Qed.

(** C4, as the claim has it, fails: the task displaced from the run-next
    slot is not always appended to the ring.  Here the slot of the first
    processor holds the task [1] and its ring of four slots is full:
    [QueueTask] with [next] puts the task [9] into the slot, and the task
    [1] goes to the global queue, behind the older half of the ring; it is
    not in the ring afterwards. *)
Lemma QueueTask_displaced_task_not_in_ring :
  allp full_ring_runnext_world !! 0
    = Some (mkP 1 (guintptr_of 1%positive) [2; 3; 4; 5]%positive 4) ∧
  QueueTask SchedulerImpl 9%positive (Some 0) true true full_ring_runnext_world
    = Some (tt, full_ring_runnext_world_spilled) ∧
  allp full_ring_runnext_world_spilled !! 0
    = Some (mkP 1 (guintptr_of 9%positive) [4; 5]%positive 4) ∧
  sched_runq (sched full_ring_runnext_world_spilled) = [2; 3; 1]%positive ∧
  ¬ (∃ (w' : world) (P' : p),
       QueueTask SchedulerImpl 9%positive (Some 0) true true full_ring_runnext_world
         = Some (tt, w') ∧
       allp w' !! 0 = Some P' ∧ 1%positive ∈ runq P').
Proof.
  repeat split; try reflexivity.
  intros (w' & P' & Hcall & HP' & Hin).
  injection Hcall as <-. injection HP' as <-.
  apply list_elem_of_In in Hin. simpl in Hin.
  destruct Hin as [Hin|[Hin|[]]]; discriminate Hin.
Qed.

(** C4, amended.  A [QueueTask] with [next] on a processor whose run-next
    slot holds a task puts the new task into the slot, and the task it
    displaced is not dropped: it is appended to the ring when the ring has a
    free slot, and when the ring is full it goes to the back of the global
    queue, behind the older half of the ring, the call taking [sched.lock]
    for that.  Nothing else changes.  So two such calls in a row on a
    processor with an empty slot and an empty ring (of one slot at least),
    first with [T1] and then with [T2], leave [T2] in the run-next slot and
    [T1] in the ring. *)
Theorem QueueTask_runnext_displaced (s : schedulerImpl) (pp : nat) (P : p) (w : world) :
  allp w !! pp = Some P ->
  (∀ gp old : g,
     runnext P = guintptr_of old ->
     length (runq P) < runq_len P ->
     QueueTask s gp (Some pp) true true w
     = Some (tt, set_allp (<[pp := mkP (schedtick P) (guintptr_of gp) (runq P ++ [old])
                                      (runq_len P)]> (allp w)) w)) ∧
  (∀ gp old : g,
     runnext P = guintptr_of old ->
     sched_lock (sched w) = false ->
     ∃ (w' : world) (P' : p),
       QueueTask s gp (Some pp) true true w = Some (tt, w') ∧
       allp w' !! pp = Some P' ∧
       runnext P' = guintptr_of gp ∧
       (old ∈ runq P' ∨ old ∈ sched_runq (sched w'))) ∧
  (∀ T1 T2 : g,
     runnext P = 0%N -> runq P = [] -> 0 < runq_len P ->
     (QueueTask s T1 (Some pp) true true;; QueueTask s T2 (Some pp) true true) w
     = Some (tt, set_allp (<[pp := mkP (schedtick P) (guintptr_of T2) [T1] (runq_len P)]>
                             (allp w)) w)) ∧
  (∀ gp old : g,
     runnext P = guintptr_of old ->
     runq_len P ≤ length (runq P) ->
     sched_lock (sched w) = false ->
     QueueTask s gp (Some pp) true true w
     = Some (tt, set_sched_runq
                   (sched_runq (sched w) ++ take (length (runq P) / 2) (runq P) ++ [old])
                   (set_allp (<[pp := mkP (schedtick P) (guintptr_of gp)
                                        (drop (length (runq P) / 2) (runq P)) (runq_len P)]>
                                (allp w)) w))).
Proof.
  intros HP.
  assert (Hlen : pp < length (allp w)) by (eapply lookup_lt_Some; eauto).
  split; [|split; [|split]].
  - intros gp old. now apply QueueTask_next_room.
  - intros gp old Hold Hl. methods.
    destruct (decide (length (runq P) < runq_len P)) as [Hroom|Hfull].
    + rewrite (QueueTask_next_room s gp old pp P w HP Hold Hroom).
      eexists _, _. split; [reflexivity|].
      split; [now apply list_lookup_insert_eq|].
      split; [reflexivity|]. left. cbn [runq].
      apply elem_of_app. right. now apply list_elem_of_singleton.
    + rewrite (QueueTask_next_full s gp old pp P w HP Hold) by (try lia; exact Hl).
      eexists _, _. split; [reflexivity|].
      cbn [allp sched sched_runq set_sched_runq set_allp set_sched].
      split; [now apply list_lookup_insert_eq|].
      split; [reflexivity|]. right.
      rewrite !elem_of_app. right. right. now apply list_elem_of_singleton.
  - intros T1 T2 Hnext Hring Hcap. methods.
    assert (H1 : schedulerImpl_QueueTask s T1 (Some pp) true true w
                 = Some (tt, set_allp (<[pp := p_set_runnext (guintptr_of T1) P]> (allp w)) w)).
    { rewrite (QueueTask_next_swaps s T1 pp P w HP), Hnext. reflexivity. }
    rewrite (bind_Some _ _ _ _ _ H1).
    rewrite (QueueTask_next_room s T2 T1 pp (p_set_runnext (guintptr_of T1) P)).
    + simpl. rewrite list_insert_insert_eq, Hring. reflexivity.
    + simpl. now apply list_lookup_insert_eq.
    + reflexivity.
    + simpl. rewrite Hring. exact Hcap.
  - intros gp old. now apply QueueTask_next_full.
Qed.

(** ** What [NextTask] returns *)

Lemma runqget_empty (pp : nat) (P : p) (w : world) :
  allp w !! pp = Some P -> runnext P = 0%N -> runq P = [] ->
  runqget pp w = Some ((None, false), w).
Proof.
  intros HP Hn Hr. unfold runqget.
  rewrite (bind_Some _ _ _ _ _ (get_p_Some _ _ _ HP)). now rewrite Hn, Hr.
Qed.

(** The local-queue step ends the search.  [GetFromLocalQueue] hands back an
    interface value made from a [*g]; such a value is never equal to [nil],
    so the test [gpInterface != nil] holds whatever [runqget] found, and the
    statements after it are not reached. *)
Lemma NextTask_returns_at_local_queue (s : schedulerImpl) (pp : nat) (mp : m) (P : p)
    (w : world) :
  allp w !! pp = Some P ->
  no_injected_work w ->
  (schedtick P mod 61 ≠ 0)%Z ∨ sched_runq (sched w) = [] ->
  schedulerImpl_NextTask s pp mp w
  = ('(gp, inheritTime) ← runqget pp; mret (iptr gp, inheritTime, false)) w.
Proof.
  intros HP [Ht Hg] Hcheck. unfold schedulerImpl_NextTask.
  rewrite (or_else_next _ _ _ _ (NextTask_traceReader_none w Ht)).
  rewrite (or_else_next _ _ _ _ (NextTask_gcWorker_none pp w Hg)).
  rewrite (or_else_next _ _ w w).
  - unfold or_else, schedulerImpl_GetFromLocalQueue, mbind, M_bind, mret, M_ret.
    destruct (runqget pp w) as [[[gp inh] w']|]; reflexivity.
  - rewrite (bind_Some _ _ _ _ _ (schedulerImpl_CheckGlobalQueue_decide s pp P w HP)).
    rewrite bool_decide_eq_false_2; [reflexivity|].
    intros [H1 H2]. destruct Hcheck; contradiction.
Qed.

(** C1, at a state the code can be in: the task [7] sits in the global queue
    and nowhere else, the processor has nothing of its own, its tick counter
    is not a multiple of 61 and there is no injected work.  [NextTask] comes
    back from the local-queue step with the nil [*g]; the task stays in the
    global queue, and no stealing is tried. *)
Theorem NextTask_global_only_task_not_returned :
  no_injected_work global_only_world ∧
  allp global_only_world !! 0 = Some idle_p ∧
  (schedtick idle_p mod 61 ≠ 0)%Z ∧
  sched_runq (sched global_only_world) = [7%positive] ∧
  GetFromGlobalQueue SchedulerImpl 0 global_only_world
    = Some (iptr (Some 7%positive), set_sched_runq [] global_only_world) ∧
  NextTask SchedulerImpl 0 0 global_only_world
    = Some ((iptr None, false, false), global_only_world).
Proof.
  repeat split; try reflexivity; try (left; reflexivity); discriminate.
Qed.

(** C9, which the code does not meet.  In a state where every source is
    empty -- no injected work is pending, the global queue is empty, and the
    run-next slot and the ring of the processor are empty -- [NextTask] does
    return at once, with [inheritTime] and [tryWakeP] false and the state as
    it was.  But what it returns is not the nil task of the last statement
    of its body: the call returns from the local-queue step with the result
    of [GetFromLocalQueue], an interface value that holds the nil [*g].  The
    test [gp == nil], by which a caller would see that there is no work and
    park, fails on it. *)
Theorem NextTask_no_work_result_is_not_nil (s : schedulerImpl) (pp : nat) (mp : m)
    (P : p) (w : world) :
  allp w !! pp = Some P ->
  no_injected_work w ->
  sched_runq (sched w) = [] ->
  runnext P = 0%N -> runq P = [] ->
  GetFromGlobalQueue s pp w = Some (inil, w) ∧
  GetFromLocalQueue s pp w = Some ((iptr None, false), w) ∧
  NextTask s pp mp w = Some ((iptr None, false, false), w) ∧
  iface_nonnil (iptr None) = true ∧
  NextTask s pp mp w ≠ Some ((inil, false, false), w).
Proof.
  intros HP Hinj Hglobal Hnext Hring. methods.
  assert (Hcall : schedulerImpl_NextTask s pp mp w = Some ((iptr None, false, false), w)).
  { rewrite (NextTask_returns_at_local_queue s pp mp P w HP Hinj (or_intror Hglobal)).
    now rewrite (bind_Some _ _ _ _ _ (runqget_empty pp P w HP Hnext Hring)). }
  split; [now apply GetFromGlobalQueue_empty|].
  split.
  { unfold schedulerImpl_GetFromLocalQueue.
    now rewrite (bind_Some _ _ _ _ _ (runqget_empty pp P w HP Hnext Hring)). }
  split; [exact Hcall|]. split; [reflexivity|].
  rewrite Hcall. discriminate.
Qed.

(** ** A task that no call returns *)

(** On the system at rest with the task [7] in the global queue, a call for
    work by either worker returns no goroutine and changes nothing but the
    processor of the calling thread. *)
Lemma do_call_global_only (s : schedulerImpl) (c : call) (me : nat) :
  call_p c < 2 ->
  do_call s c (set_getg_p me global_only_world)
  = Some (iptr None, set_getg_p (call_p c) global_only_world).
Proof.
  intros Hc. destruct s.
  destruct c as [[|[|pp]] mp|[|[|pp]] mp now]; cbn [call_p] in *;
    first [reflexivity|lia].
Qed.

Lemma do_calls_global_only (s : schedulerImpl) (calls : list call) (me : nat) :
  Forall (fun c => call_p c < 2) calls ->
  ∃ (rs : list iface) (me' : nat),
    do_calls s calls (set_getg_p me global_only_world)
      = Some (rs, set_getg_p me' global_only_world) ∧
    length rs = length calls ∧
    Forall (fun r => iface_g r = None) rs.
Proof.
  intros Hcalls. revert me.
  induction Hcalls as [|c calls Hc Hcalls IH]; intros me.
  - exists [], me. repeat split. constructor.
  - destruct (IH (call_p c)) as (rs & me' & Hrun & Hlen & Hnone).
    exists (iptr None :: rs), me'.
    cbn [do_calls].
    rewrite (bind_Some _ _ _ _ _ (do_call_global_only s c me Hc)).
    rewrite (bind_Some _ _ _ _ _ Hrun).
    repeat split.
    + cbn [length]. now rewrite Hlen.
    + now constructor.
Qed.

(** C8, which the code does not meet, in runs whose calls do not overlap.
    The system is at rest; the task [7] is made runnable with
    [QueueTask(7, nil, false, false)]; then the two workers call [NextTask]
    and [StealWork] any number of times, in any order, one call at a time.
    Every call returns, and none returns the task [7] or any other
    goroutine; after the run the task is still runnable and still in the
    global queue, and the processors and the queues are as they were after
    the [QueueTask], so that further calls change nothing either: the task
    is returned zero times. *)
Theorem queued_task_is_returned_zero_times (s : schedulerImpl) (calls : list call) :
  Forall (fun c => call_p c < 2) calls ->
  ∃ (rs : list iface) (me : nat),
    (QueueTask s 7%positive None false false;; do_calls s calls) idle_world
      = Some (rs, set_getg_p me global_only_world) ∧
    length rs = length calls ∧
    Forall (fun r => iface_g r = None) rs ∧
    gstatus (set_getg_p me global_only_world) 7%positive = Grunnable ∧
    queued_tasks (set_getg_p me global_only_world) = [7%positive] ∧
    sched (set_getg_p me global_only_world) = mkSched false [7%positive] ∧
    allp (set_getg_p me global_only_world) = [idle_p; idle_p].
Proof.
  intros Hcalls.
  destruct (do_calls_global_only s calls 0 Hcalls) as (rs & me & Hrun & Hlen & Hnone).
  exists rs, me.
  split; [|repeat split; assumption].
  destruct s.
  assert (Hq : QueueTask SchedulerImpl 7%positive None false false idle_world
               = Some (tt, set_getg_p 0 global_only_world)) by reflexivity.
  now rewrite (bind_Some _ _ _ _ _ Hq).
Qed.

(** C10. [priorityScheduler] and [fifoScheduler] answer as the default
    scheduler on [NextTask], [QueueTask], [StealWork], [GetFromLocalQueue]
    and [GetFromGlobalQueue], for all arguments and in every state, with the
    same effect on the state. *)
Theorem priority_fifo_delegate_to_default :
  (∀ s : priorityScheduler, delegates_to_default s) ∧
  (∀ s : fifoScheduler, delegates_to_default s).
Proof.
  split; intros [[]]; repeat split.
Qed.

(** ** The order of the sources under the work-stealing policy *)

(** C6, as the claim has it, fails: in this state the processor of the
    caller has nothing of its own, the check of the policy does not hold, a
    thief would get the task [3] from the other processor and the task [9]
    sits in the global queue; [NextTask] of [workStealingScheduler] does not
    return the task [3]. *)
Lemma workStealing_NextTask_does_not_steal_first :
  allp steal_or_global_world !! 0 = Some idle_p ∧
  runnext idle_p = 0%N ∧ runq idle_p = [] ∧
  CheckGlobalQueue newWorkStealingScheduler 0 steal_or_global_world
    = Some (false, steal_or_global_world) ∧
  fst <$> StealWork newWorkStealingScheduler 0 0 0 steal_or_global_world
    = Some (iptr (Some 3%positive), false, 0%Z, 0%Z, false) ∧
  sched_runq (sched steal_or_global_world) = [9%positive] ∧
  NextTask newWorkStealingScheduler 0 0 steal_or_global_world
    = Some ((iptr None, false, false), steal_or_global_world) ∧
  ¬ (∃ (inheritTime tryWakeP : bool) (w' : world),
       NextTask newWorkStealingScheduler 0 0 steal_or_global_world
       = Some ((iptr (Some 3%positive), inheritTime, tryWakeP), w')).
Proof.
  repeat split; try reflexivity.
  intros (inh & wake & w' & H). discriminate H.
Qed.

(** C6, amended.  [workStealingScheduler] declares no [NextTask]: the method
    is the one of the embedded [schedulerImpl], so in every state it returns
    what [NextTask] of the default scheduler returns, with the same effect.
    Stealing does not come before the global queue: in a state where no
    injected work is pending, the processor has nothing of its own, the check
    of the policy does not hold, the global queue is not empty and
    [sched.lock] is free, the call returns and no other processor has lost or
    gained a task.  The policy differs from the default in its
    [CheckGlobalQueue] only, which is true exactly when the tick counter is a
    multiple of 101 and the global queue is not empty: the other methods are
    those of the default scheduler. *)
Theorem workStealing_NextTask_is_default (s : workStealingScheduler) (pp : nat) (mp : m)
    (P : p) (w : world) :
  allp w !! pp = Some P ->
  NextTask s pp mp w = NextTask SchedulerImpl pp mp w ∧
  (no_injected_work w ->
   runnext P = 0%N -> runq P = [] ->
   CheckGlobalQueue s pp w = Some (false, w) ->
   sched_runq (sched w) ≠ [] ->
   sched_lock (sched w) = false ->
   ∃ (r : iface * bool * bool) (w' : world),
     NextTask s pp mp w = Some (r, w') ∧
     ∀ j : nat, j ≠ pp -> allp w' !! j = allp w !! j) ∧
  (∃ b : bool,
     CheckGlobalQueue s pp w = Some (b, w) ∧
     (b = true ↔ (schedtick P mod 101 = 0)%Z ∧ sched_runq (sched w) ≠ [])) ∧
  delegates_to_default s.
Proof.
  intros HP. split; [reflexivity|].
  split.
  2:{ split.
      - eexists. split; [apply (check_every _ pp P w HP)|apply bool_decide_eq_true].
      - destruct s as [[]]. repeat split. }
  intros Hinj Hnext Hring _ Hne Hl. simpl.
  destruct (decide (schedtick P mod 61 = 0)%Z) as [Hhit|Hmiss].
  - destruct (sched_runq (sched w)) as [|gp rest] eqn:Hq; [done|].
    destruct (NextTask_fairness_hit (workStealing_schedulerImpl s) pp mp P w gp rest)
      as (w' & Hget & Hnt); try done.
    exists (iptr (Some gp), false, false), w'. split; [exact Hnt|].
    rewrite (GetFromGlobalQueue_nonempty _ pp P w gp rest HP Hl Hq) in Hget.
    injection Hget as <-. intros j Hj. simpl.
    now apply list_lookup_insert_ne.
  - exists (iptr None, false, false), w. split; [|done].
    rewrite (NextTask_returns_at_local_queue _ pp mp P w HP Hinj (or_introl Hmiss)).
    now rewrite (bind_Some _ _ _ _ _ (runqget_empty pp P w HP Hnext Hring)).
Qed.

(** ** The theorems at the example states *)

Lemma GetFromGlobalQueue_loses_no_task_witness :
  allp full_ring_world !! 0 = Some (mkP 1 0%N [1; 2; 3; 4]%positive 4) ∧
  sched_lock (sched full_ring_world) = false ∧
  ∃ (r : iface) (w' : world),
    GetFromGlobalQueue SchedulerImpl 0 full_ring_world = Some (r, w') ∧
    ∃ P' : p, allp w' !! 0 = Some P' ∧
      iface_tasks r ++ runq P' ++ sched_runq (sched w')
        ≡ₚ [1; 2; 3; 4]%positive ++ sched_runq (sched full_ring_world).
Proof.
  split; [reflexivity|]. split; [reflexivity|].
  destruct (GetFromGlobalQueue_loses_no_task SchedulerImpl 0
              (mkP 1 0%N [1; 2; 3; 4]%positive 4) full_ring_world eq_refl eq_refl)
    as (r & w' & batch & rest & placed & back & Hcall & _ & _ & _ & HP' & _ & _ & _ & Hperm).
  exists r, w'. split; [exact Hcall|].
  eexists. split; [exact HP'|exact Hperm].
Defined.


Lemma example_policies_CheckGlobalQueue_witness :
  allp global_only_world !! 0 = Some idle_p ∧
  ∃ b : bool,
    CheckGlobalQueue newWorkStealingScheduler 0 global_only_world
      = Some (b, global_only_world) ∧
    (b = true ↔ (schedtick idle_p mod 101 = 0)%Z ∧ sched_runq (sched global_only_world) ≠ []).
Proof.
  split; [reflexivity|].
  destruct (example_policies_CheckGlobalQueue 0 idle_p global_only_world eq_refl)
    as (_ & _ & Hws & _).
  apply Hws.
Defined.

Lemma QueueTask_placement_witness :
  QueueTask SchedulerImpl 7%positive (Some 0) true true idle_world
    = runqput 0 7%positive true idle_world ∧
  QueueTask SchedulerImpl 7%positive (Some 0) true true idle_world
    = Some (tt, set_allp [mkP 1 (guintptr_of 7%positive) [] 256; idle_p] idle_world) ∧
  QueueTask SchedulerImpl 10%positive (Some 0) false true full_ring_world
    = Some (tt, full_ring_world_spilled) ∧
  QueueTask SchedulerImpl 7%positive None true true idle_world
    = Some (tt, set_sched_runq [7%positive] idle_world) ∧
  QueueTask SchedulerImpl 7%positive (Some 0) false false idle_world
    = Some (tt, set_sched_runq [7%positive] idle_world).
Proof.
  split; [|split; [|split; [|split]]].
  - apply (proj1 (QueueTask_placement SchedulerImpl 7%positive (Some 0) true true idle_world));
      reflexivity.
  - apply (proj1 (proj2 (proj1 (proj2 (QueueTask_placement SchedulerImpl 7%positive (Some 0)
                                         true true idle_world))
                           0 idle_p eq_refl eq_refl eq_refl) eq_refl)).
    reflexivity.
  - apply (proj1 (proj2 (proj1 (proj1 (proj2 (QueueTask_placement SchedulerImpl 10%positive
                                                (Some 0) false true full_ring_world))
                                  0 (mkP 1 0%N [1; 2; 3; 4]%positive 4)
                                  eq_refl eq_refl eq_refl) eq_refl)));
      [simpl; lia|reflexivity].
  - apply (proj2 (proj2 (QueueTask_placement SchedulerImpl 7%positive None true true
                           idle_world)));
      [right|]; reflexivity.
  - apply (proj2 (proj2 (QueueTask_placement SchedulerImpl 7%positive (Some 0) false false
                           idle_world)));
      [left|]; reflexivity.
Defined.

Lemma QueueTask_runnext_displaced_witness :
  QueueTask SchedulerImpl 2%positive (Some 0) true true runnext_taken_world
    = Some (tt, set_allp [mkP 1 (guintptr_of 2%positive) [1%positive] 256; idle_p]
                  runnext_taken_world) ∧
  (QueueTask SchedulerImpl 1%positive (Some 0) true true;;
   QueueTask SchedulerImpl 2%positive (Some 0) true true) idle_world
    = Some (tt, set_allp [mkP 1 (guintptr_of 2%positive) [1%positive] 256; idle_p]
                  idle_world) ∧
  QueueTask SchedulerImpl 9%positive (Some 0) true true full_ring_runnext_world
    = Some (tt, full_ring_runnext_world_spilled).
Proof.
  split; [|split].
  - apply (proj1 (QueueTask_runnext_displaced SchedulerImpl 0
                    (mkP 1 (guintptr_of 1%positive) [] 256) runnext_taken_world eq_refl)
             2%positive 1%positive); [reflexivity|simpl; lia].
  - apply (proj1 (proj2 (proj2 (QueueTask_runnext_displaced SchedulerImpl 0 idle_p idle_world
                                  eq_refl))) 1%positive 2%positive);
      [reflexivity|reflexivity|simpl; lia].
  - apply (proj2 (proj2 (proj2 (QueueTask_runnext_displaced SchedulerImpl 0
                                  (mkP 1 (guintptr_of 1%positive) [2; 3; 4; 5]%positive 4)
                                  full_ring_runnext_world eq_refl)))
             9%positive 1%positive); [reflexivity|simpl; lia|reflexivity].
Defined.

Lemma NextTask_no_work_result_is_not_nil_witness :
  allp idle_world !! 0 = Some idle_p ∧
  no_injected_work idle_world ∧
  sched_runq (sched idle_world) = [] ∧
  steals_nothing idle_world ∧
  NextTask SchedulerImpl 0 0 idle_world = Some ((iptr None, false, false), idle_world) ∧
  iface_nonnil (iptr None) = true ∧
  NextTask SchedulerImpl 0 0 idle_world ≠ Some ((inil, false, false), idle_world).
Proof.
  assert (Hinj : no_injected_work idle_world) by (split; left; reflexivity).
  split; [reflexivity|]. split; [exact Hinj|]. split; [reflexivity|].
  split; [reflexivity|].
  apply (NextTask_no_work_result_is_not_nil SchedulerImpl 0 0 idle_p idle_world);
    try reflexivity; exact Hinj.
Defined.

Lemma queued_task_is_returned_zero_times_witness :
  Forall (fun c => call_p c < 2)
    [call_NextTask 0 0; call_StealWork 1 1 0; call_NextTask 1 1; call_NextTask 0 0] ∧
  ∃ (rs : list iface) (me : nat),
    (QueueTask SchedulerImpl 7%positive None false false;;
     do_calls SchedulerImpl
       [call_NextTask 0 0; call_StealWork 1 1 0; call_NextTask 1 1; call_NextTask 0 0])
      idle_world
      = Some (rs, set_getg_p me global_only_world) ∧
    length rs = 4 ∧
    Forall (fun r => iface_g r = None) rs ∧
    queued_tasks (set_getg_p me global_only_world) = [7%positive].
Proof.
  assert (Hcalls : Forall (fun c => call_p c < 2)
            [call_NextTask 0 0; call_StealWork 1 1 0; call_NextTask 1 1; call_NextTask 0 0])
    by (repeat constructor; simpl; lia).
  split; [exact Hcalls|].
  destruct (queued_task_is_returned_zero_times SchedulerImpl _ Hcalls)
    as (rs & me & Hrun & Hlen & Hnone & _ & Hq & _).
  exists rs, me. repeat split; assumption.
Defined.

Lemma workStealing_NextTask_is_default_witness :
  allp steal_or_global_world !! 0 = Some idle_p ∧
  NextTask newWorkStealingScheduler 0 0 steal_or_global_world
    = NextTask SchedulerImpl 0 0 steal_or_global_world ∧
  ∃ (r : iface * bool * bool) (w' : world),
    NextTask newWorkStealingScheduler 0 0 steal_or_global_world = Some (r, w') ∧
    allp w' !! 1 = Some (mkP 1 0%N [3%positive; 4%positive] 256).
Proof.
  split; [reflexivity|].
  destruct (workStealing_NextTask_is_default newWorkStealingScheduler 0 0 idle_p
              steal_or_global_world eq_refl) as (Hsame & Hquiet & _).
  split; [exact Hsame|].
  destruct Hquiet as (r & w' & Hcall & Hothers);
    try reflexivity; [split; left; reflexivity|discriminate|].
  exists r, w'. split; [exact Hcall|].
  rewrite (Hothers 1) by discriminate. reflexivity.
Defined.

(** * Further properties of the scheduler methods *)

(** ** The steps of [NextTask] *)

(** The trace-reader probe, in full: it finds nothing and changes nothing,
    or it hands out the reader that was ready and waiting. *)
Lemma NextTask_traceReader_cases (w w' : world) (r : option (iface * bool * bool)) :
  NextTask_traceReader w = Some (r, w') ->
  (r = None ∧ w' = w) ∨
  (∃ gp : g,
     r = Some (iptr (Some gp), false, true) ∧
     trace_enabled w || trace_shutdown w = true ∧
     trace_reader w = Some gp ∧
     gstatus w gp = Gwaiting ∧
     w' = set_trace_log (trace_log w ++ (if trace_enabled w then [gp] else []))
            (set_gstatus (fun x => if Pos.eqb x gp then Grunnable else gstatus w x)
               (set_trace_reader None w))).
Proof.
  destruct w as [sc ps me so gs te ts tr tl ge gw ck].
  unfold NextTask_traceReader, traceEnabled, traceShuttingDown, traceReader, traceAcquire,
    casgstatus, GoUnpark, traceRelease, gets, modify, mbind, M_bind, mret, M_ret.
  world_simpl.
  destruct (te || ts) eqn:Eon; [|intros [= <- <-]; now left].
  destruct tr as [gp|]; [|intros [= <- <-]; now left].
  destruct (decide (gs gp = Gwaiting)) as [Hst|Hst]; [|discriminate].
  destruct te; intros [= <- <-]; right; exists gp; repeat split; try done.
  - world_simpl. now rewrite app_nil_r.
Qed.

(** The collector probe, in full. *)
Lemma NextTask_gcWorker_cases (pp : nat) (w w' : world) (r : option (iface * bool * bool)) :
  NextTask_gcWorker pp w = Some (r, w') ->
  (r = None ∧ w' = w) ∨
  (∃ gp : g,
     r = Some (iptr (Some gp), false, true) ∧
     gcBlackenEnabled w ≠ 0%Z ∧
     gc_worker w = Some gp ∧
     w' = set_gc_worker None w).
Proof.
  unfold NextTask_gcWorker, nanotime, findRunnableGCWorker, gets, modify,
    mbind, M_bind, mret, M_ret.
  destruct (Z.eqb_spec (gcBlackenEnabled w) 0) as [E|E]; cbn [negb].
  - intros [= <- <-]. now left.
  - destruct (gc_worker w) as [gp|] eqn:Hw; intros [= <- <-]; [right|now left].
    now exists gp.
Qed.

(** A sequence of two calls returns when both do; an early return comes
    from the probe or, when the probe found nothing, from the rest. *)
Lemma bind_inv {A B : Type} (c : M A) (f : A -> M B) (w w' : world) (b : B) :
  (c ≫= f) w = Some (b, w') ->
  ∃ (a : A) (w1 : world), c w = Some (a, w1) ∧ f a w1 = Some (b, w').
Proof.
  unfold mbind, M_bind. destruct (c w) as [[a w1]|]; [|discriminate].
  intros H. now exists a, w1.
Qed.

Lemma or_else_inv {A : Type} (c : M (option A)) (k : M A) (w w' : world) (a : A) :
  or_else c k w = Some (a, w') ->
  c w = Some (Some a, w') ∨ ∃ w1 : world, c w = Some (None, w1) ∧ k w1 = Some (a, w').
Proof.
  unfold or_else. intros H.
  destruct (bind_inv _ _ _ _ _ H) as ([x|] & w1 & Hc & Hk).
  - injection Hk as <- <-. now left.
  - right. now exists w1.
Qed.

(** [GetFromGlobalQueue] waits when the queue is not empty and the lock is
    held. *)
Lemma GetFromGlobalQueue_locked (s : schedulerImpl) (pp : nat) (w : world) :
  sched_runq (sched w) ≠ [] -> sched_lock (sched w) = true ->
  schedulerImpl_GetFromGlobalQueue s pp w = None.
Proof.
  intros Hq Hl. unfold schedulerImpl_GetFromGlobalQueue.
  rewrite (bind_Some _ _ _ _ _ (sched_runq_empty_spec w)).
  rewrite bool_decide_eq_false_2 by exact Hq.
  unfold lock_sched, mbind, M_bind. now rewrite Hl.
Qed.

(** The local-queue step of [NextTask]: whatever [runqget] gives is
    returned. *)
Lemma runqget_cases (pp : nat) (w w' : world) (gp : option g) (inh : bool) :
  runqget pp w = Some ((gp, inh), w') ->
  ∃ P : p, allp w !! pp = Some P ∧
    ((∃ x : g, runnext P = guintptr_of x ∧ gp = Some x ∧ inh = true ∧
        w' = set_allp (<[pp := p_set_runnext 0%N P]> (allp w)) w) ∨
     (∃ x : g, runnext P = 0%N ∧ runq P = removelast (runq P) ++ [x] ∧
        gp = Some x ∧ inh = false ∧
        w' = set_allp (<[pp := p_set_runq (removelast (runq P)) P]> (allp w)) w) ∨
     (runnext P = 0%N ∧ runq P = [] ∧ gp = None ∧ inh = false ∧ w' = w)).
Proof.
  unfold runqget, get_p, put_p, modify, mbind, M_bind, mret, M_ret.
  destruct (allp w !! pp) as [P|] eqn:HP; [|discriminate].
  intros H. exists P. split; [reflexivity|].
  destruct (runnext P) as [|x] eqn:Hn; cbn [guintptr_ptr] in H.
  - destruct (last (runq P)) as [x|] eqn:Hlast.
    + injection H as <- <- <-. right. left. exists x. repeat split; try done.
      destruct (runq P) as [|y l] using rev_ind; [done|].
      rewrite last_snoc in Hlast. injection Hlast as ->.
      now rewrite removelast_last.
    + injection H as <- <- <-. right. right. repeat split; try done.
      now apply last_None.
  - injection H as <- <- <-. left. now exists x.
Qed.

(** Every way [NextTask] returns.  There are four: with the trace reader,
    with a collector worker, with the head of the global queue when the
    fairness check holds, and with whatever the local queue gave.  The second
    reading of the global queue and the stealing are never the source. *)
Lemma NextTask_cases (s : schedulerImpl) (pp : nat) (mp : m) (w w' : world)
    (r : iface * bool * bool) :
  schedulerImpl_NextTask s pp mp w = Some (r, w') ->
  (∃ gp : g, NextTask_traceReader w = Some (Some r, w') ∧
     r = (iptr (Some gp), false, true)) ∨
  (∃ gp : g, NextTask_traceReader w = Some (None, w) ∧
     NextTask_gcWorker pp w = Some (Some r, w') ∧ r = (iptr (Some gp), false, true)) ∨
  (∃ (P : p) (gp : g) (rest : list g),
     allp w !! pp = Some P ∧ (schedtick P mod 61 = 0)%Z ∧
     sched_runq (sched w) = gp :: rest ∧ sched_lock (sched w) = false ∧
     schedulerImpl_GetFromGlobalQueue s pp w = Some (iptr (Some gp), w') ∧
     r = (iptr (Some gp), false, false)) ∨
  (∃ (P : p) (gp : option g) (inh : bool),
     allp w !! pp = Some P ∧
     ((schedtick P mod 61 ≠ 0)%Z ∨ sched_runq (sched w) = []) ∧
     runqget pp w = Some ((gp, inh), w') ∧ r = (iptr gp, inh, false)).
Proof.
  unfold schedulerImpl_NextTask. intros H.
  apply or_else_inv in H as [H|(w1 & Htr & H)].
  { destruct (NextTask_traceReader_cases _ _ _ H) as [[? _]|(gp & [= ->] & _)]; [done|].
    left. now exists gp. }
  destruct (NextTask_traceReader_cases _ _ _ Htr) as [[_ ->]|(gp & ? & _)]; [|done].
  right.
  apply or_else_inv in H as [H|(w2 & Hgc & H)].
  { destruct (NextTask_gcWorker_cases _ _ _ _ H) as [[? _]|(gp & [= ->] & _)]; [done|].
    left. now exists gp. }
  destruct (NextTask_gcWorker_cases _ _ _ _ Hgc) as [[_ ->]|(gp & ? & _)]; [|done].
  right.
  assert (HP : ∃ P : p, allp w !! pp = Some P).
  { apply or_else_inv in H as [H|(w3 & H & _)];
      apply bind_inv in H as (c & w4 & Hc & _);
      unfold schedulerImpl_CheckGlobalQueue in Hc;
      apply bind_inv in Hc as (P & w5 & Hc & _); unfold get_p in Hc;
      destruct (allp w !! pp) as [P'|]; try discriminate; now exists P'. }
  destruct HP as [P HP].
  pose proof (schedulerImpl_CheckGlobalQueue_decide s pp P w HP) as Hcheck.
  destruct (decide ((schedtick P mod 61 = 0)%Z ∧ sched_runq (sched w) ≠ []))
    as [[Hhit Hne]|Hmiss].
  - rewrite bool_decide_eq_true_2 in Hcheck by done.
    left. destruct (sched_runq (sched w)) as [|gp rest] eqn:Hq; [done|].
    destruct (sched_lock (sched w)) eqn:Hl.
    { exfalso.
      assert (Hnone : schedulerImpl_GetFromGlobalQueue s pp w = None)
        by (apply GetFromGlobalQueue_locked; [now rewrite Hq|done]).
      apply or_else_inv in H as [H|(w3 & H & _)];
        rewrite (bind_Some _ _ _ _ _ Hcheck) in H;
        unfold mbind, M_bind in H; now rewrite Hnone in H. }
    pose proof (GetFromGlobalQueue_nonempty s pp P w gp rest HP Hl Hq) as Hget.
    cbv zeta in Hget.
    apply or_else_inv in H as [H|(w3 & H & _)];
      rewrite (bind_Some _ _ _ _ _ Hcheck) in H;
      rewrite (bind_Some _ _ _ _ _ Hget) in H; [|done].
    injection H as <- <-.
    exists P, gp, rest. repeat split; try done.
  - rewrite bool_decide_eq_false_2 in Hcheck by done.
    right.
    apply or_else_inv in H as [H|(w3 & Hc & H)];
      rewrite (bind_Some _ _ _ _ _ Hcheck) in *; [done|].
    injection Hc as <-.
    assert (Hcond : (schedtick P mod 61 ≠ 0)%Z ∨ sched_runq (sched w) = []).
    { destruct (decide (schedtick P mod 61 = 0)%Z) as [Ht|Ht]; [|now left].
      right. destruct (sched_runq (sched w)); [done|]. exfalso. now apply Hmiss. }
    apply or_else_inv in H as [H|(w3 & H & _)];
      unfold schedulerImpl_GetFromLocalQueue in H;
      apply bind_inv in H as ([gpI inh] & w4 & Hloc & H);
      apply bind_inv in Hloc as ([gp inh'] & w5 & Hget & Hloc);
      injection Hloc as <- <- <-; [|done].
    injection H as <- <-.
    eexists P, _, _. repeat split; done.
Qed.

(** ** What a call changes *)

(** Replacing one processor replaces its tasks among the queued ones. *)
Lemma p_tasks_insert (l : list p) (i : nat) (P P' : p) :
  l !! i = Some P ->
  ∃ A B : list g,
    concat (p_tasks <$> l) = A ++ p_tasks P ++ B ∧
    concat (p_tasks <$> <[i := P']> l) = A ++ p_tasks P' ++ B.
Proof.
  intros Hi.
  exists (concat (p_tasks <$> take i l)), (concat (p_tasks <$> drop (S i) l)).
  assert (Hlen : i < length l) by (eapply lookup_lt_Some; eauto).
  split.
  - rewrite <- (take_drop_middle l i P Hi) at 1.
    now rewrite fmap_app, concat_app, fmap_cons, concat_cons.
  - rewrite insert_take_drop by exact Hlen.
    now rewrite fmap_app, concat_app, fmap_cons, concat_cons.
Qed.

Lemma queued_tasks_insert (w w' : world) (i : nat) (P P' : p) (out extra : list g) :
  allp w !! i = Some P ->
  allp w' = <[i := P']> (allp w) ->
  out ++ p_tasks P' ++ sched_runq (sched w')
    ≡ₚ extra ++ p_tasks P ++ sched_runq (sched w) ->
  out ++ queued_tasks w' ≡ₚ extra ++ queued_tasks w.
Proof.
  intros Hi Hw' Hperm. unfold queued_tasks. rewrite Hw'.
  destruct (p_tasks_insert (allp w) i P P' Hi) as (A & B & -> & ->).
  transitivity ((A ++ B) ++ (out ++ p_tasks P' ++ sched_runq (sched w')));
    [solve_Permutation|].
  rewrite Hperm. solve_Permutation.
Qed.

Lemma rings_bounded_insert (w w' : world) (i : nat) (P P' : p) :
  allp w !! i = Some P ->
  allp w' = <[i := P']> (allp w) ->
  (length (runq P) ≤ runq_len P -> length (runq P') ≤ runq_len P') ->
  rings_bounded w -> rings_bounded w'.
Proof.
  unfold rings_bounded. intros Hi -> HP' Hall.
  apply Forall_insert; [exact Hall|].
  apply HP'. now apply (Forall_lookup_1 _ _ _ _ Hall Hi).
Qed.

(** The push onto the ring, in full: it appends when the ring has a free
    slot, and otherwise spills, for which it needs the lock. *)
Lemma runq_push_cases (pp : nat) (gp : g) (w w' : world) :
  runq_push pp gp w = Some (tt, w') ->
  ∃ P : p, allp w !! pp = Some P ∧
    ((length (runq P) < runq_len P ∧
      w' = set_allp (<[pp := p_set_runq (runq P ++ [gp]) P]> (allp w)) w) ∨
     (¬ length (runq P) < runq_len P ∧ sched_lock (sched w) = false ∧
      w' = set_sched_runq
             (sched_runq (sched w) ++ take (length (runq P) / 2) (runq P) ++ [gp])
             (set_allp (<[pp := p_set_runq (drop (length (runq P) / 2) (runq P)) P]>
                          (allp w)) w))).
Proof.
  intros H.
  destruct (allp w !! pp) as [P|] eqn:HP.
  2:{ unfold runq_push, get_p, mbind, M_bind in H. now rewrite HP in H. }
  exists P. split; [reflexivity|].
  destruct (decide (length (runq P) < runq_len P)) as [Hroom|Hfull].
  - left. rewrite (runq_push_room pp P gp w HP Hroom) in H. now injection H as <-.
  - right. destruct (sched_lock (sched w)) eqn:Hl.
    + exfalso. revert H. unfold runq_push.
      rewrite (bind_Some _ _ _ _ _ (get_p_Some _ _ _ HP)).
      rewrite decide_False by exact Hfull.
      unfold put_p, modify, lock_sched, mbind, M_bind.
      cbn [sched sched_lock set_allp]. now rewrite Hl.
    + rewrite (runq_push_full pp P gp w HP Hfull Hl) in H. now injection H as <-.
Qed.

(** What a push onto the ring of [pp] does to the tasks, the bounds and the
    lock. *)
Lemma runq_push_effect (pp : nat) (gp : g) (w w' : world) :
  runq_push pp gp w = Some (tt, w') ->
  ∃ P P' : p,
    allp w !! pp = Some P ∧ allp w' = <[pp := P']> (allp w) ∧
    schedtick P' = schedtick P ∧ runq_len P' = runq_len P ∧ runnext P' = runnext P ∧
    sched_lock (sched w') = sched_lock (sched w) ∧
    runq P' ++ sched_runq (sched w') ≡ₚ gp :: runq P ++ sched_runq (sched w) ∧
    (length (runq P) ≤ runq_len P -> length (runq P') ≤ runq_len P').
Proof.
  intros H. destruct (runq_push_cases pp gp w w' H) as (P & HP & [[Hroom ->]|(Hfull & Hl & ->)]).
  - exists P, (p_set_runq (runq P ++ [gp]) P).
    cbn [allp sched set_allp runq schedtick runq_len runnext p_set_runq].
    repeat split; try done.
    + solve_Permutation.
    + intros _. rewrite length_app. cbn [length]. lia.
  - exists P, (p_set_runq (drop (length (runq P) / 2) (runq P)) P).
    cbn [allp sched sched_lock sched_runq set_sched_runq set_sched set_allp runq schedtick
         runq_len runnext p_set_runq].
    repeat split; try done.
    + transitivity (gp :: (take (length (runq P) / 2) (runq P)
                            ++ drop (length (runq P) / 2) (runq P))
                         ++ sched_runq (sched w));
        [solve_Permutation|now rewrite take_drop].
    + intros Hb. rewrite length_drop. lia.
Qed.

(** What [QueueTask] does to the state when it returns: either the global
    push, or a change of the one processor it was given. *)
Lemma QueueTask_shape (s : schedulerImpl) (gp : g) (pp : option nat) (next local : bool)
    (w w' : world) :
  schedulerImpl_QueueTask s gp pp next local w = Some (tt, w') ->
  ((local = false ∨ pp = None) ∧ sched_lock (sched w) = false ∧
   w' = set_sched_runq (sched_runq (sched w) ++ [gp]) w) ∨
  (∃ (i : nat) (P P' : p),
     local = true ∧ pp = Some i ∧
     allp w !! i = Some P ∧ allp w' = <[i := P']> (allp w) ∧
     schedtick P' = schedtick P ∧ runq_len P' = runq_len P ∧
     (if next then runnext P' = guintptr_of gp else runnext P' = runnext P) ∧
     sched_lock (sched w') = sched_lock (sched w) ∧
     p_tasks P' ++ sched_runq (sched w') ≡ₚ gp :: p_tasks P ++ sched_runq (sched w) ∧
     (length (runq P) ≤ runq_len P -> length (runq P') ≤ runq_len P')).
Proof.
  intros H.
  assert (Hglobal : (local = false ∨ pp = None) ->
            sched_lock (sched w) = false ∧
            w' = set_sched_runq (sched_runq (sched w) ++ [gp]) w).
  { intros Hg.
    assert (Hcall : schedulerImpl_QueueTask s gp pp next local w
                    = (lock_sched;; globrunqput gp;; unlock_sched) w).
    { unfold schedulerImpl_QueueTask.
      destruct Hg as [-> | ->]; [reflexivity|]. now destruct local. }
    rewrite Hcall in H. revert H.
    unfold lock_sched, unlock_sched, globrunqput, assertLockHeld_sched, modify,
      mbind, M_bind.
    destruct (sched_lock (sched w)) eqn:Hl; [discriminate|].
    destruct w as [[lk gq] ps me so gs te ts tr tl ge gw ck].
    cbn [sched sched_lock] in Hl. subst lk. world_simpl.
    intros [= <-]. split; reflexivity. }
  destruct local; [|left; split; [now left|apply Hglobal; now left]].
  destruct pp as [i|]; [|left; split; [now right|apply Hglobal; now right]].
  right. clear Hglobal.
  destruct next.
  - destruct (allp w !! i) as [P|] eqn:HP.
    2:{ unfold schedulerImpl_QueueTask, get_p, mbind, M_bind in H. now rewrite HP in H. }
    rewrite (QueueTask_next_swaps s gp i P w HP) in H.
    assert (Hlen : i < length (allp w)) by (eapply lookup_lt_Some; eauto).
    destruct (runnext P) as [|old] eqn:Hold; cbn [guintptr_ptr] in H.
    + injection H as <-.
      exists i, P, (p_set_runnext (guintptr_of gp) P).
      cbn [allp sched set_allp schedtick runq_len runnext runq p_set_runnext].
      repeat split; try done.
      unfold p_tasks. cbn [runnext runq p_set_runnext guintptr_of guintptr_ptr].
      rewrite Hold. reflexivity.
    + destruct (runq_push_effect i old _ w' H)
        as (P1 & P' & HP1 & Hw' & Htick & Hcap & Hnext & Hlock & Hperm & Hbound).
      cbn [allp sched set_allp] in HP1, Hw', Hlock, Hperm.
      rewrite list_lookup_insert_eq in HP1 by exact Hlen. injection HP1 as <-.
      rewrite list_insert_insert_eq in Hw'.
      cbn [schedtick runq_len runnext runq p_set_runnext] in *.
      exists i, P, P'. repeat split; try done.
      unfold p_tasks. rewrite Hnext, Hold.
      cbn [guintptr_of guintptr_ptr]. simpl option_list. simpl app.
      rewrite Hperm. solve_Permutation.
  - unfold schedulerImpl_QueueTask, runqput in H.
    destruct (runq_push_effect i gp w w' H)
      as (P & P' & HP & Hw' & Htick & Hcap & Hnext & Hlock & Hperm & Hbound).
    exists i, P, P'. repeat split; try done.
    unfold p_tasks. rewrite Hnext, <- (assoc_L (++)), Hperm. solve_Permutation.
Qed.

(** What [NextTask] does to the state when it returns: injected work leaves
    the processors and [sched] alone; queued work changes the processor [pp]
    and the global queue only, and comes out of them. *)
Lemma NextTask_shape (s : schedulerImpl) (pp : nat) (mp : m) (w w' : world)
    (r : iface) (inh wake : bool) :
  schedulerImpl_NextTask s pp mp w = Some ((r, inh, wake), w') ->
  (wake = true ∧ inh = false ∧ allp w' = allp w ∧ sched w' = sched w ∧
   ∃ gp : g, r = iptr (Some gp) ∧ (trace_reader w = Some gp ∨ gc_worker w = Some gp)) ∨
  (wake = false ∧
   ∃ P P' : p,
     allp w !! pp = Some P ∧ allp w' = <[pp := P']> (allp w) ∧
     schedtick P' = schedtick P ∧ runq_len P' = runq_len P ∧
     sched_lock (sched w') = sched_lock (sched w) ∧
     iface_tasks r ++ p_tasks P' ++ sched_runq (sched w')
       ≡ₚ p_tasks P ++ sched_runq (sched w) ∧
     (length (runq P) ≤ runq_len P -> length (runq P') ≤ runq_len P')).
Proof.
  intros H.
  destruct (NextTask_cases s pp mp w w' _ H)
    as [(gp & Htr & Hr)|[(gp & _ & Hgc & Hr)|[(P & gp & rest & HP & _ & Hq & Hl & Hget & Hr)
       |(P & gp & inh' & HP & _ & Hget & Hr)]]];
    injection Hr as -> -> ->.
  - left. repeat split; try done.
    + destruct (NextTask_traceReader_cases _ _ _ Htr) as [[? _]|(x & _ & _ & _ & _ & ->)];
        [done|reflexivity].
    + destruct (NextTask_traceReader_cases _ _ _ Htr) as [[? _]|(x & _ & _ & _ & _ & ->)];
        [done|reflexivity].
    + destruct (NextTask_traceReader_cases _ _ _ Htr) as [[? _]|(x & [= <-] & _ & Hx & _)];
        [done|]. exists gp. split; [reflexivity|now left].
  - left. repeat split; try done.
    + destruct (NextTask_gcWorker_cases _ _ _ _ Hgc) as [[? _]|(x & _ & _ & _ & ->)];
        [done|reflexivity].
    + destruct (NextTask_gcWorker_cases _ _ _ _ Hgc) as [[? _]|(x & _ & _ & _ & ->)];
        [done|reflexivity].
    + destruct (NextTask_gcWorker_cases _ _ _ _ Hgc) as [[? _]|(x & [= <-] & _ & Hx & _)];
        [done|]. exists gp. split; [reflexivity|now right].
  - right. split; [reflexivity|].
    rewrite (GetFromGlobalQueue_nonempty s pp P w gp rest HP Hl Hq) in Hget.
    injection Hget as <-.
    set (k := Z.to_nat (Z.of_nat (runq_len P) `quot` 2 - 1)).
    set (room := runq_len P - length (runq P)).
    exists P, (p_set_runq (runq P ++ take room (take k rest)) P).
    cbn [allp sched sched_lock sched_runq set_sched_runq set_sched set_allp
         schedtick runq_len runnext runq p_set_runq].
    repeat split; try done.
    + unfold p_tasks, iface_tasks.
      cbn [runnext runq p_set_runq iface_g]. simpl option_list at 1. rewrite Hq.
      transitivity (gp :: (option_list (guintptr_ptr (runnext P)) ++ runq P)
                       ++ (take room (take k rest) ++ drop room (take k rest))
                       ++ drop k rest); [solve_Permutation|].
      rewrite !take_drop. solve_Permutation.
    + intros Hb. rewrite length_app, length_take. lia.
  - right. split; [reflexivity|].
    destruct (runqget_cases pp w w' gp inh' Hget)
      as (P0 & HP0 & [(x & Hx & -> & -> & ->)|[(x & Hn & Hx & -> & -> & ->)
         |(Hn & Hr & -> & -> & ->)]]);
      rewrite HP in HP0; injection HP0 as <-.
    + exists P, (p_set_runnext 0%N P).
      cbn [allp sched set_allp schedtick runq_len runnext runq p_set_runnext].
      repeat split; try done.
      unfold p_tasks, iface_tasks.
      cbn [runnext runq p_set_runnext iface_g guintptr_ptr]. rewrite Hx.
      reflexivity.
    + exists P, (p_set_runq (removelast (runq P)) P).
      cbn [allp sched set_allp schedtick runq_len runnext runq p_set_runq].
      repeat split; try done.
      * unfold p_tasks, iface_tasks. cbn [runnext runq p_set_runq iface_g].
        rewrite Hx at 2. rewrite Hn. simpl. solve_Permutation.
      * intros Hb. rewrite Hx, length_app in Hb. cbn [length] in Hb. lia.
    + exists P, P. rewrite list_insert_id by exact HP.
      repeat split; try done.
Qed.

(** ** Injected work comes first *)

(** X1. When the tracer is on or shutting down and its reader goroutine is
    ready (waiting to be resumed), [NextTask] returns the reader with
    [inheritTime] false and [tryWakeP] true, whatever the queues hold and
    whoever holds [sched.lock]: the reader becomes runnable, an unpark event
    is written exactly when the tracer is on, and no processor, queue or lock
    changes. *)
Theorem NextTask_trace_reader_first (s : schedulerImpl) (pp : nat) (mp : m) (w : world)
    (gp : g) :
  trace_enabled w || trace_shutdown w = true ->
  trace_reader w = Some gp ->
  gstatus w gp = Gwaiting ->
  ∃ w' : world,
    NextTask s pp mp w = Some ((iptr (Some gp), false, true), w') ∧
    allp w' = allp w ∧ sched w' = sched w ∧
    gstatus w' gp = Grunnable ∧
    (∀ x : g, x ≠ gp -> gstatus w' x = gstatus w x) ∧
    trace_log w' = trace_log w ++ (if trace_enabled w then [gp] else []).
Proof.
  intros Hon Hreader Hstatus.
  assert (Hprobe : NextTask_traceReader w
           = Some (Some (iptr (Some gp), false, true),
                   set_trace_log (trace_log w ++ (if trace_enabled w then [gp] else []))
                     (set_gstatus (fun x => if Pos.eqb x gp then Grunnable else gstatus w x)
                        (set_trace_reader None w)))).
  { destruct w as [sc ps me so gs te ts tr tl ge gw ck].
    cbn [trace_enabled trace_shutdown trace_reader gstatus trace_log] in *. subst tr.
    unfold NextTask_traceReader, traceEnabled, traceShuttingDown, traceReader, traceAcquire,
      casgstatus, GoUnpark, traceRelease, gets, modify, mbind, M_bind, mret, M_ret.
    world_simpl. rewrite Hon. rewrite decide_True by exact Hstatus.
    destruct te; world_simpl; [reflexivity|now rewrite app_nil_r]. }
  eexists. split.
  - methods. unfold schedulerImpl_NextTask. apply or_else_found. exact Hprobe.
  - cbn [allp sched gstatus trace_log set_trace_log set_gstatus set_trace_reader].
    repeat split.
    + now rewrite Pos.eqb_refl.
    + intros x Hx. destruct (Pos.eqb_spec x gp); [contradiction|reflexivity].
Qed.

(** X2. When the trace-reader probe hands out nothing and the collector is
    marking with a worker ready, [NextTask] returns that worker with
    [inheritTime] false and [tryWakeP] true, whatever the queues hold; the
    worker is handed out and nothing else changes. *)
Theorem NextTask_gc_worker_second (s : schedulerImpl) (pp : nat) (mp : m) (w : world)
    (gp : g) :
  trace_enabled w || trace_shutdown w = false ∨ trace_reader w = None ->
  gcBlackenEnabled w ≠ 0%Z ->
  gc_worker w = Some gp ->
  NextTask s pp mp w = Some ((iptr (Some gp), false, true), set_gc_worker None w).
Proof.
  intros Htr Hen Hworker. methods. unfold schedulerImpl_NextTask.
  rewrite (or_else_next _ _ _ _ (NextTask_traceReader_none w Htr)).
  apply or_else_found.
  unfold NextTask_gcWorker, nanotime, findRunnableGCWorker, gets, modify,
    mbind, M_bind, mret, M_ret.
  destruct (Z.eqb_spec (gcBlackenEnabled w) 0) as [E|E]; [contradiction|].
  cbn [negb]. now rewrite Hworker.
Qed.

(** ** What [NextTask] never does *)

(** X3. [NextTask] never returns the nil interface: in every state in which
    it returns, the test [gp == nil] on its first result is false, also when
    no goroutine was found. *)
Theorem NextTask_never_returns_nil_interface (s : schedulerImpl) (pp : nat) (mp : m)
    (w w' : world) (r : iface) (inheritTime tryWakeP : bool) :
  NextTask s pp mp w = Some ((r, inheritTime, tryWakeP), w') ->
  iface_nonnil r = true.
Proof.
  methods. intros H.
  destruct (NextTask_cases s pp mp w w' _ H)
    as [(gp & _ & Hr)|[(gp & _ & _ & Hr)|[(P & gp & rest & _ & _ & _ & _ & _ & Hr)
       |(P & gp & inh & _ & _ & _ & Hr)]]];
    now injection Hr as -> _ _.
Qed.

(** X4. [NextTask] changes no processor but the one it is called for, and of
    that one neither the tick counter nor the size of the ring; it takes
    nothing from another processor (it never steals), and it leaves
    [sched.lock] as it found it. *)
Theorem NextTask_changes_only_its_processor (s : schedulerImpl) (pp : nat) (mp : m)
    (w w' : world) (res : iface * bool * bool) :
  NextTask s pp mp w = Some (res, w') ->
  (∀ j : nat, j ≠ pp -> allp w' !! j = allp w !! j) ∧
  (∀ P' : p, allp w' !! pp = Some P' ->
     ∃ P : p, allp w !! pp = Some P ∧
       schedtick P' = schedtick P ∧ runq_len P' = runq_len P) ∧
  sched_lock (sched w') = sched_lock (sched w).
Proof.
  methods. destruct res as [[r inh] wake]. intros H.
  destruct (NextTask_shape s pp mp w w' r inh wake H)
    as [(_ & _ & Hallp & Hsched & _)
       |(_ & P & P' & HP & Hallp & Htick & Hcap & Hlock & _)].
  - rewrite Hallp, Hsched. repeat split; try done.
    intros P' HP'. now exists P'.
  - assert (Hlen : pp < length (allp w)) by (eapply lookup_lt_Some; eauto).
    rewrite Hallp. repeat split; try done.
    + intros j Hj. now apply list_lookup_insert_ne.
    + intros Q HQ. rewrite list_lookup_insert_eq in HQ by exact Hlen.
      injection HQ as <-. now exists P.
Qed.

(** X5. [NextTask] neither loses nor duplicates a queued goroutine.  When it
    returns with [tryWakeP] false, the goroutine it returns (if any) together
    with the goroutines queued afterwards are the goroutines queued before,
    each as many times.  When it returns with [tryWakeP] true, the goroutine
    is the trace reader or the collector worker that was ready,
    [inheritTime] is false, and the queues are as they were. *)
Theorem NextTask_conserves_tasks (s : schedulerImpl) (pp : nat) (mp : m) (w w' : world)
    (r : iface) (inheritTime tryWakeP : bool) :
  NextTask s pp mp w = Some ((r, inheritTime, tryWakeP), w') ->
  (tryWakeP = false ∧ iface_tasks r ++ queued_tasks w' ≡ₚ queued_tasks w) ∨
  (tryWakeP = true ∧ inheritTime = false ∧ queued_tasks w' = queued_tasks w ∧
   ∃ gp : g, r = iptr (Some gp) ∧ (trace_reader w = Some gp ∨ gc_worker w = Some gp)).
Proof.
  methods. intros H.
  destruct (NextTask_shape s pp mp w w' r inheritTime tryWakeP H)
    as [(-> & -> & Hallp & Hsched & Hgp)
       |(-> & P & P' & HP & Hallp & _ & _ & _ & Hperm & _)].
  - right. repeat split; try done. unfold queued_tasks. now rewrite Hallp, Hsched.
  - left. split; [reflexivity|].
    apply (queued_tasks_insert w w' pp P P' (iface_tasks r) [] HP Hallp Hperm).
Qed.

(** X6. A processor with nothing of its own gets nothing at a tick that is
    not a multiple of 61: when no injected work is pending, the run-next slot
    and the ring are empty and the tick counter is not a multiple of 61,
    [NextTask] returns no goroutine and leaves the state as it was, whatever
    the global queue and the other processors hold.  The call can be repeated
    any number of times with the same outcome, since it does not advance the
    tick counter. *)
Theorem NextTask_idle_processor_gets_nothing (s : schedulerImpl) (pp : nat) (mp : m)
    (P : p) (w : world) :
  allp w !! pp = Some P ->
  no_injected_work w ->
  (schedtick P mod 61 ≠ 0)%Z ->
  runnext P = 0%N -> runq P = [] ->
  NextTask s pp mp w = Some ((iptr None, false, false), w).
Proof.
  intros HP Hinj Htick Hnext Hring. methods.
  rewrite (NextTask_returns_at_local_queue s pp mp P w HP Hinj (or_introl Htick)).
  now rewrite (bind_Some _ _ _ _ _ (runqget_empty pp P w HP Hnext Hring)).
Qed.

(** ** What [QueueTask] keeps *)

(** X7. [QueueTask] neither loses nor duplicates a goroutine: whenever it
    returns, the goroutines queued afterwards are the new one and those
    queued before, each as many times -- also when the new goroutine
    displaces the one in the run-next slot, and when a full ring spills to
    the global queue. *)
Theorem QueueTask_conserves_tasks (s : schedulerImpl) (gp : g) (pp : option nat)
    (next local : bool) (w w' : world) :
  QueueTask s gp pp next local w = Some (tt, w') ->
  queued_tasks w' ≡ₚ gp :: queued_tasks w.
Proof.
  methods. intros H.
  destruct (QueueTask_shape s gp pp next local w w' H)
    as [(_ & _ & ->)|(i & P & P' & _ & _ & HP & Hallp & _ & _ & _ & _ & Hperm & _)].
  - unfold queued_tasks. cbn [allp sched sched_runq set_sched_runq set_sched].
    solve_Permutation.
  - apply (queued_tasks_insert w w' i P P' [] [gp] HP Hallp Hperm).
Qed.

(** X8. [QueueTask] changes no processor but the one it is given, and none
    when it pushes to the global queue; it changes no tick counter and no
    ring size, and it leaves [sched.lock] as it found it.  On the local path
    with [next] set, the new goroutine always ends in the run-next slot: the
    compare-and-swap does not fail. *)
Theorem QueueTask_changes_only_its_processor (s : schedulerImpl) (gp : g)
    (pp : option nat) (next local : bool) (w w' : world) :
  QueueTask s gp pp next local w = Some (tt, w') ->
  sched_lock (sched w') = sched_lock (sched w) ∧
  (∀ j : nat, pp ≠ Some j ∨ local = false -> allp w' !! j = allp w !! j) ∧
  (∀ (j : nat) (P' : p), allp w' !! j = Some P' ->
     ∃ P : p, allp w !! j = Some P ∧
       schedtick P' = schedtick P ∧ runq_len P' = runq_len P) ∧
  (∀ i : nat, local = true -> next = true -> pp = Some i ->
     ∃ P' : p, allp w' !! i = Some P' ∧ runnext P' = guintptr_of gp).
Proof.
  methods. intros H.
  destruct (QueueTask_shape s gp pp next local w w' H)
    as [(Hglobal & Hl & ->)
       |(i & P & P' & -> & -> & HP & Hallp & Htick & Hcap & Hnext & Hlock & _)].
  - cbn [allp sched sched_lock set_sched_runq set_sched].
    repeat split; try done.
    + intros j Q HQ. now exists Q.
    + intros i -> _ ->. now destruct Hglobal.
  - assert (Hlen : i < length (allp w)) by (eapply lookup_lt_Some; eauto).
    rewrite Hallp. repeat split; try done.
    + intros j [Hj|Hj]; [|discriminate]. apply list_lookup_insert_ne. congruence.
    + intros j Q HQ. destruct (decide (i = j)) as [<-|Hne].
      * rewrite list_lookup_insert_eq in HQ by exact Hlen. injection HQ as <-.
        now exists P.
      * rewrite list_lookup_insert_ne in HQ by exact Hne. now exists Q.
    + intros i' _ -> [= <-]. exists P'.
      split; [now apply list_lookup_insert_eq|exact Hnext].
Qed.

(** ** The bound of the rings *)

(** X9. No call overfills a ring: when no ring holds more goroutines than it
    has slots, the same is true after [QueueTask] and after [NextTask]
    (which refills the ring from the global queue at a fairness tick). *)
Theorem scheduler_keeps_rings_bounded (s : schedulerImpl) (w : world) :
  rings_bounded w ->
  (∀ (gp : g) (pp : option nat) (next local : bool) (w' : world),
     QueueTask s gp pp next local w = Some (tt, w') -> rings_bounded w') ∧
  (∀ (pp : nat) (mp : m) (res : iface * bool * bool) (w' : world),
     NextTask s pp mp w = Some (res, w') -> rings_bounded w').
Proof.
  intros Hb. split.
  - intros gp pp next local w'. methods. intros H.
    destruct (QueueTask_shape s gp pp next local w w' H)
      as [(_ & _ & ->)|(i & P & P' & _ & _ & HP & Hallp & _ & _ & _ & _ & _ & Hbound)].
    + exact Hb.
    + exact (rings_bounded_insert w w' i P P' HP Hallp Hbound Hb).
  - intros pp mp [[r inh] wake] w'. methods. intros H.
    destruct (NextTask_shape s pp mp w w' r inh wake H)
      as [(_ & _ & Hallp & _)|(_ & P & P' & HP & Hallp & _ & _ & _ & _ & Hbound)].
    + unfold rings_bounded. now rewrite Hallp.
    + exact (rings_bounded_insert w w' pp P P' HP Hallp Hbound Hb).
Qed.

(** ** More on [GetFromGlobalQueue] *)

Lemma half_ring_less_one (n : nat) :
  Z.to_nat (Z.of_nat n `quot` 2 - 1) = n / 2 - 1.
Proof.
  rewrite Z.quot_div_nonneg by lia.
  change 2%Z with (Z.of_nat 2). rewrite <- Nat2Z.inj_div. lia.
Qed.

(** The batch pop inside the critical section, on a queue that is not
    empty. *)
Lemma globrunqgetbatch_nonempty (n : Z) (w : world) (gp : g) (rest : list g) :
  sched_lock (sched w) = true ->
  sched_runq (sched w) = gp :: rest ->
  globrunqgetbatch n w
  = Some ((Some gp, take (Z.to_nat (n - 1)) rest),
          set_sched_runq (drop (Z.to_nat (n - 1)) rest) w).
Proof.
  intros Hl Hq.
  unfold globrunqgetbatch, assertLockHeld_sched, gets, modify, mbind, M_bind, mret, M_ret.
  now rewrite Hl, Hq.
Qed.

(** [GetFromGlobalQueue] on a queue that is not empty: whenever the call
    returns, it returns the head of the queue, whatever [pp] points to. *)
Lemma GetFromGlobalQueue_head (s : schedulerImpl) (pp : nat) (w w' : world) (r : iface)
    (gp : g) (rest : list g) :
  sched_runq (sched w) = gp :: rest ->
  schedulerImpl_GetFromGlobalQueue s pp w = Some (r, w') ->
  r = iptr (Some gp).
Proof.
  intros Hq H. unfold schedulerImpl_GetFromGlobalQueue in H.
  rewrite (bind_Some _ _ _ _ _ (sched_runq_empty_spec w)) in H.
  rewrite bool_decide_eq_false_2 in H by (now rewrite Hq).
  apply bind_inv in H as ([] & w1 & Hlock & H).
  unfold lock_sched in Hlock.
  destruct (sched_lock (sched w)); [discriminate|]. injection Hlock as <-.
  apply bind_inv in H as (n & w2 & Hn & H). injection Hn as _ <-.
  rewrite (bind_Some _ _ _ _ _
             (globrunqgetbatch_nonempty _ (set_lock true w) gp rest eq_refl Hq)) in H.
  cbv beta iota in H.
  apply bind_inv in H as ([] & w3 & _ & H).
  apply bind_inv in H as ([] & w4 & _ & H).
  now injection H as <- _.
Qed.

(** A queue of one goroutine: the batch behind the head is empty, so the
    processor is never read. *)
Lemma GetFromGlobalQueue_single (s : schedulerImpl) (pp : nat) (w : world) (gp : g) :
  sched_runq (sched w) = [gp] ->
  sched_lock (sched w) = false ->
  schedulerImpl_GetFromGlobalQueue s pp w = Some (iptr (Some gp), set_sched_runq [] w).
Proof.
  intros Hq Hl.
  destruct w as [[lk gq] ps me so gs te ts tr tl ge gw ck].
  cbn [sched sched_lock sched_runq] in Hq, Hl. subst lk gq.
  unfold schedulerImpl_GetFromGlobalQueue, sched_runq_empty, lock_sched, unlock_sched,
    globrunqgetbatch, len_runq, assertLockHeld_sched, gets, modify,
    mbind, M_bind, mret, M_ret.
  world_simpl. rewrite take_nil, drop_nil. reflexivity.
Qed.

(** X10. [GetFromGlobalQueue] returns the nil interface exactly when the
    global queue is empty, and then it takes no lock, reads no processor and
    changes nothing, so it returns even while [sched.lock] is held; when the
    queue is not empty and the call returns, the result is the goroutine at
    the head of the queue.  With one goroutine in the queue and the lock
    free the call returns that goroutine and leaves the queue empty,
    whatever [pp] points to: [len(pp.runq)] follows no pointer, and an empty
    batch is not handed to any processor. *)
Theorem GetFromGlobalQueue_nil_iff_empty (s : schedulerImpl) (pp : nat) (w : world) :
  (sched_runq (sched w) = [] -> GetFromGlobalQueue s pp w = Some (inil, w)) ∧
  (∀ (r : iface) (w' : world),
     GetFromGlobalQueue s pp w = Some (r, w') ->
     r = match sched_runq (sched w) with
         | [] => inil
         | gp :: _ => iptr (Some gp)
         end) ∧
  (∀ gp : g,
     sched_runq (sched w) = [gp] -> sched_lock (sched w) = false ->
     GetFromGlobalQueue s pp w = Some (iptr (Some gp), set_sched_runq [] w)).
Proof.
  methods. split; [apply GetFromGlobalQueue_empty|]. split.
  - intros r w' H.
    destruct (sched_runq (sched w)) as [|gp rest] eqn:Hq.
    + rewrite (GetFromGlobalQueue_empty s pp w Hq) in H. now injection H as <- _.
    + exact (GetFromGlobalQueue_head s pp w w' r gp rest Hq H).
  - intros gp. apply GetFromGlobalQueue_single.
Qed.

(** X11. When the ring of the processor is full, [GetFromGlobalQueue] still
    pops its batch: it returns the head of the global queue, and the
    goroutines it popped behind the head (fewer than half the slots of the
    ring) find no free slot and are pushed to the back of the global queue,
    behind goroutines that were queued after them.  No processor changes. *)
Theorem GetFromGlobalQueue_full_ring_rotates (s : schedulerImpl) (pp : nat) (P : p)
    (w : world) (gp : g) (rest : list g) :
  allp w !! pp = Some P ->
  runq_len P ≤ length (runq P) ->
  sched_lock (sched w) = false ->
  sched_runq (sched w) = gp :: rest ->
  ∃ (w' : world) (moved kept : list g),
    GetFromGlobalQueue s pp w = Some (iptr (Some gp), w') ∧
    allp w' = allp w ∧
    sched_lock (sched w') = false ∧
    rest = moved ++ kept ∧
    sched_runq (sched w') = kept ++ moved ∧
    length moved ≤ runq_len P / 2 - 1.
Proof.
  intros HP Hfull Hl Hq. methods.
  rewrite (GetFromGlobalQueue_nonempty s pp P w gp rest HP Hl Hq).
  rewrite half_ring_less_one.
  replace (runq_len P - length (runq P)) with 0 by lia.
  rewrite take_0, drop_0, app_nil_r, p_set_runq_same, (list_insert_id _ _ _ HP).
  eexists _, (take (runq_len P / 2 - 1) rest), (drop (runq_len P / 2 - 1) rest).
  split; [reflexivity|].
  cbn [allp sched sched_lock sched_runq set_sched_runq set_sched set_allp].
  repeat split.
  - exact Hl.
  - now rewrite take_drop.
  - rewrite length_take. lia.
Qed.

(** ** Queueing, then taking *)




Lemma runqget_runnext (pp : nat) (P : p) (gp : g) (w : world) :
  allp w !! pp = Some P -> runnext P = guintptr_of gp ->
  runqget pp w = Some ((Some gp, true), set_allp (<[pp := p_set_runnext 0%N P]> (allp w)) w).
Proof.
  intros HP Hn. unfold runqget.
  rewrite (bind_Some _ _ _ _ _ (get_p_Some _ _ _ HP)). now rewrite Hn.
Qed.

(** X13. A goroutine queued with [next] on a processor is the one that
    processor gets next: after [QueueTask(gp, pp, true, true)],
    [GetFromLocalQueue(pp)] returns [gp] with [inheritTime] true, and so does
    [NextTask] (with [tryWakeP] false) when no injected work is pending and
    the fairness check does not hold.  What was queued before the two calls
    is still queued after them, the goroutine displaced from the run-next
    slot included. *)
Theorem QueueTask_next_then_GetFromLocalQueue (s : schedulerImpl) (gp : g) (pp : nat)
    (mp : m) (w w1 : world) :
  QueueTask s gp (Some pp) true true w = Some (tt, w1) ->
  ∃ (P1 : p) (w2 : world),
    allp w1 !! pp = Some P1 ∧
    GetFromLocalQueue s pp w1 = Some ((iptr (Some gp), true), w2) ∧
    queued_tasks w2 ≡ₚ queued_tasks w ∧
    (no_injected_work w1 ->
     (schedtick P1 mod 61 ≠ 0)%Z ∨ sched_runq (sched w1) = [] ->
     NextTask s pp mp w1 = Some ((iptr (Some gp), true, false), w2)).
Proof.
  methods. intros H.
  destruct (QueueTask_shape s gp (Some pp) true true w w1 H)
    as [([?|?] & _)|(i & P & P1 & _ & [= <-] & HP & Hallp & _ & _ & Hnext & _ & Hperm & _)];
    try discriminate.
  assert (Hlen : pp < length (allp w)) by (eapply lookup_lt_Some; eauto).
  assert (HP1 : allp w1 !! pp = Some P1)
    by (rewrite Hallp; now apply list_lookup_insert_eq).
  pose proof (runqget_runnext pp P1 gp w1 HP1 Hnext) as Hget.
  exists P1, (set_allp (<[pp := p_set_runnext 0%N P1]> (allp w1)) w1).
  split; [exact HP1|]. split; [|split].
  - unfold schedulerImpl_GetFromLocalQueue. now rewrite (bind_Some _ _ _ _ _ Hget).
  - apply (Permutation_cons_inv (a := gp)).
    rewrite <- (queued_tasks_insert w w1 pp P P1 [] [gp] HP Hallp Hperm).
    apply (queued_tasks_insert w1 (set_allp (<[pp := p_set_runnext 0%N P1]> (allp w1)) w1)
             pp P1 (p_set_runnext 0%N P1) [gp] [] HP1 eq_refl).
    unfold p_tasks. cbn [runnext runq p_set_runnext guintptr_ptr sched set_allp].
    rewrite Hnext. reflexivity.
  - intros Hinj Hmiss.
    rewrite (NextTask_returns_at_local_queue s pp mp P1 w1 HP1 Hinj Hmiss).
    now rewrite (bind_Some _ _ _ _ _ Hget).
Qed.

(** ** The scheduler in use *)

(** Among [n] consecutive values of a [uint32] counter one is a multiple of
    [n]. *)
Lemma tick_window_any (n t0 : Z) :
  (0 < n ≤ 2 ^ 32)%Z -> (0 ≤ t0 < 2 ^ 32)%Z ->
  ∃ k : nat, (Z.of_nat k < n)%Z ∧ (tick_after t0 k mod n = 0)%Z.
Proof.
  intros Hn Ht. unfold tick_after.
  destruct (Z_lt_le_dec (t0 + (n - 1)) (2 ^ 32)) as [Hlt|Hge].
  - exists (Z.to_nat ((n - t0 mod n) mod n)).
    pose proof (Z.mod_pos_bound t0 n ltac:(lia)) as Hr.
    pose proof (Z.mod_pos_bound (n - t0 mod n) n ltac:(lia)) as Hk.
    rewrite Z2Nat.id by lia. split; [lia|].
    rewrite (Z.mod_small (t0 + _) (2 ^ 32)) by lia.
    rewrite Zplus_mod_idemp_r.
    replace (t0 + (n - t0 mod n))%Z with ((t0 - t0 mod n) + 1 * n)%Z by lia.
    rewrite Z_mod_plus_full.
    rewrite Zminus_mod_idemp_r. rewrite Z.sub_diag. apply Zmod_0_l.
  - exists (Z.to_nat (2 ^ 32 - t0)).
    rewrite Z2Nat.id by lia. split; [lia|].
    replace (t0 + (2 ^ 32 - t0))%Z with (2 ^ 32)%Z by lia.
    rewrite Z_mod_same_full. apply Zmod_0_l.
Qed.

Lemma CheckGlobalQueue_value (v : SchedulerValue) (n : Z) (pp : nat) (P : p) (w : world) :
  check_modulus v = Some n ->
  allp w !! pp = Some P ->
  CheckGlobalQueue v pp w
  = Some (bool_decide ((schedtick P mod n = 0)%Z ∧ sched_runq (sched w) ≠ []), w).
Proof.
  intros Hv HP.
  destruct v as [|s|s|s|s]; try discriminate; injection Hv as <-;
    apply (check_every _ pp P w HP).
Qed.

(** X14. Whatever scheduler is in use, its check of the global queue holds
    at least once in as many consecutive scheduling rounds of a processor as
    its modulus says -- 61 for the default scheduler, 31, 127 and 101 for the
    three example schedulers -- the tick counter going up by one (modulo
    [2^32]) each round and the global queue never being empty. *)
Theorem CheckGlobalQueue_holds_within_modulus (v : SchedulerValue) (n : Z) (pp : nat)
    (t0 : Z) (round : nat -> world) :
  check_modulus v = Some n ->
  (0 ≤ t0 < 2 ^ 32)%Z ->
  (∀ k : nat, (Z.of_nat k < n)%Z ->
     ∃ Pk : p, allp (round k) !! pp = Some Pk ∧
               schedtick Pk = tick_after t0 k ∧
               sched_runq (sched (round k)) ≠ []) ->
  ∃ k : nat, (Z.of_nat k < n)%Z ∧
    CheckGlobalQueue v pp (round k) = Some (true, round k).
Proof.
  intros Hv Ht Hround.
  assert (Hn : (0 < n ≤ 2 ^ 32)%Z) by (destruct v; try discriminate; injection Hv as <-; lia).
  destruct (tick_window_any n t0 Hn Ht) as (k & Hk & Hmod).
  exists k. split; [exact Hk|].
  destruct (Hround k Hk) as (Pk & HPk & Htick & Hne).
  rewrite (CheckGlobalQueue_value v n pp Pk (round k) Hv HPk).
  rewrite bool_decide_eq_true_2; [reflexivity|]. now rewrite Htick.
Qed.

(** X16. [GetFromLocalQueue] and [StealWork] never return the nil interface,
    whichever scheduler is in use and also when they found no goroutine: a
    caller cannot see an empty queue or a failed steal by comparing the
    result with [nil].  [StealWork] does not look at the processor and the
    thread it is given. *)
Theorem GetFromLocalQueue_StealWork_results_are_typed (v : SchedulerValue) (pp : nat)
    (mp : m) (now : Z) (w : world) :
  (∀ (r : iface) (inheritTime : bool) (w' : world),
     GetFromLocalQueue v pp w = Some ((r, inheritTime), w') -> iface_nonnil r = true) ∧
  (∀ (r : iface) (inheritTime : bool) (tnow pollUntil : Z) (newWork : bool) (w' : world),
     StealWork v pp mp now w = Some ((r, inheritTime, tnow, pollUntil, newWork), w') ->
     iface_nonnil r = true ∧
     ∀ (pp' : nat) (mp' : m),
       StealWork v pp' mp' now w = Some ((r, inheritTime, tnow, pollUntil, newWork), w')).
Proof.
  split.
  - intros r inh w' H.
    assert (Hloc : schedulerImpl_GetFromLocalQueue SchedulerImpl pp w = Some ((r, inh), w'))
      by (destruct v as [|[]|[[]]|[[]]|[[]]]; first [discriminate H|exact H]).
    unfold schedulerImpl_GetFromLocalQueue in Hloc.
    apply bind_inv in Hloc as ([gp inh'] & w1 & _ & Hret).
    now injection Hret as <- _ _.
  - intros r inh tn pu nw w' H.
    assert (Hst : schedulerImpl_StealWork SchedulerImpl pp mp now w
                  = Some ((r, inh, tn, pu, nw), w'))
      by (destruct v as [|[]|[[]]|[[]]|[[]]]; first [discriminate H|exact H]).
    split.
    + unfold schedulerImpl_StealWork in Hst.
      apply bind_inv in Hst as ([[[[gp inh'] tn'] pu'] nw'] & w1 & _ & Hret).
      now injection Hret as <- _ _ _ _ _.
    + intros pp' mp'.
      destruct v as [|[]|[[]]|[[]]|[[]]]; first [discriminate H|exact Hst].
Qed.

(** ** The further properties at the example states *)

Lemma NextTask_trace_reader_first_witness :
  gstatus tracing_world 11%positive = Gwaiting ∧
  ∃ w' : world,
    NextTask SchedulerImpl 0 0 tracing_world
      = Some ((iptr (Some 11%positive), false, true), w') ∧
    sched_runq (sched w') = [7%positive] ∧
    gstatus w' 11%positive = Grunnable ∧
    trace_log w' = [11%positive].
Proof.
  split; [reflexivity|].
  destruct (NextTask_trace_reader_first SchedulerImpl 0 0 tracing_world 11%positive
              eq_refl eq_refl eq_refl) as (w' & Hcall & _ & Hsched & Hst & _ & Hlog).
  exists w'. split; [exact Hcall|]. split; [now rewrite Hsched|].
  split; [exact Hst|exact Hlog].
Defined.

Lemma NextTask_gc_worker_second_witness :
  gc_worker marking_world = Some 12%positive ∧
  NextTask SchedulerImpl 0 0 marking_world
    = Some ((iptr (Some 12%positive), false, true), set_gc_worker None marking_world).
Proof.
  split; [reflexivity|].
  apply (NextTask_gc_worker_second SchedulerImpl 0 0 marking_world 12%positive);
    [left; reflexivity|discriminate|reflexivity].
Defined.

Lemma NextTask_never_returns_nil_interface_witness :
  NextTask SchedulerImpl 0 0 global_only_world
    = Some ((iptr None, false, false), global_only_world) ∧
  iface_nonnil (iptr None) = true.
Proof.
  split; [reflexivity|].
  apply (NextTask_never_returns_nil_interface SchedulerImpl 0 0 global_only_world
           global_only_world (iptr None) false false).
  reflexivity.
Defined.

Lemma NextTask_changes_only_its_processor_witness :
  NextTask SchedulerImpl 0 0 fairness_world
    = Some ((iptr (Some 5%positive), false, false), fairness_world_after) ∧
  allp fairness_world_after !! 1 = allp fairness_world !! 1 ∧
  sched_lock (sched fairness_world_after) = sched_lock (sched fairness_world).
Proof.
  split; [reflexivity|].
  destruct (NextTask_changes_only_its_processor SchedulerImpl 0 0 fairness_world
              fairness_world_after (iptr (Some 5%positive), false, false) eq_refl)
    as (Hothers & _ & Hlock).
  split; [apply Hothers; discriminate|exact Hlock].
Defined.

Lemma NextTask_conserves_tasks_witness :
  queued_tasks fairness_world = [1; 2; 3; 5; 6]%positive ∧
  NextTask SchedulerImpl 0 0 fairness_world
    = Some ((iptr (Some 5%positive), false, false), fairness_world_after) ∧
  5%positive :: queued_tasks fairness_world_after ≡ₚ queued_tasks fairness_world.
Proof.
  split; [reflexivity|]. split; [reflexivity|].
  destruct (NextTask_conserves_tasks SchedulerImpl 0 0 fairness_world fairness_world_after
              (iptr (Some 5%positive)) false false eq_refl) as [[_ Hperm]|[Hwake _]].
  - exact Hperm.
  - discriminate Hwake.
Defined.

Lemma NextTask_idle_processor_gets_nothing_witness :
  sched_runq (sched steal_or_global_world) = [9%positive] ∧
  NextTask SchedulerImpl 0 0 steal_or_global_world
    = Some ((iptr None, false, false), steal_or_global_world).
Proof.
  split; [reflexivity|].
  apply (NextTask_idle_processor_gets_nothing SchedulerImpl 0 0 idle_p steal_or_global_world);
    [reflexivity|split; left; reflexivity|discriminate|reflexivity|reflexivity].
Defined.

Lemma QueueTask_conserves_tasks_witness :
  queued_tasks full_ring_world = [1; 2; 3; 4; 5; 6; 7; 8; 9]%positive ∧
  QueueTask SchedulerImpl 10%positive (Some 0) false true full_ring_world
    = Some (tt, full_ring_world_spilled) ∧
  queued_tasks full_ring_world_spilled ≡ₚ 10%positive :: queued_tasks full_ring_world.
Proof.
  split; [reflexivity|]. split; [reflexivity|].
  apply (QueueTask_conserves_tasks SchedulerImpl 10%positive (Some 0) false true
           full_ring_world full_ring_world_spilled).
  reflexivity.
Defined.

Lemma QueueTask_changes_only_its_processor_witness :
  QueueTask SchedulerImpl 10%positive (Some 0) false true full_ring_world
    = Some (tt, full_ring_world_spilled) ∧
  sched_lock (sched full_ring_world_spilled) = sched_lock (sched full_ring_world) ∧
  allp full_ring_world_spilled !! 1 = allp full_ring_world !! 1.
Proof.
  split; [reflexivity|].
  destruct (QueueTask_changes_only_its_processor SchedulerImpl 10%positive (Some 0)
              false true full_ring_world full_ring_world_spilled eq_refl)
    as (Hlock & Hothers & _).
  split; [exact Hlock|]. apply Hothers. left. discriminate.
Defined.

Lemma scheduler_keeps_rings_bounded_witness :
  rings_bounded full_ring_world ∧
  QueueTask SchedulerImpl 10%positive (Some 0) false true full_ring_world
    = Some (tt, full_ring_world_spilled) ∧
  rings_bounded full_ring_world_spilled.
Proof.
  assert (Hb : rings_bounded full_ring_world)
    by (repeat constructor; simpl; lia).
  split; [exact Hb|]. split; [reflexivity|].
  apply (proj1 (scheduler_keeps_rings_bounded SchedulerImpl full_ring_world Hb)
           10%positive (Some 0) false true full_ring_world_spilled).
  reflexivity.
Defined.

Lemma GetFromGlobalQueue_nil_iff_empty_witness :
  GetFromGlobalQueue SchedulerImpl 0 idle_world = Some (inil, idle_world) ∧
  GetFromGlobalQueue SchedulerImpl 0 global_only_world
    = Some (iptr (Some 7%positive), set_sched_runq [] global_only_world) ∧
  iptr (Some 7%positive)
    = match sched_runq (sched global_only_world) with
      | [] => inil
      | gp :: _ => iptr (Some gp)
      end ∧
  allp global_only_world !! 5 = None ∧
  GetFromGlobalQueue SchedulerImpl 5 global_only_world
    = Some (iptr (Some 7%positive), set_sched_runq [] global_only_world).
Proof.
  split; [|split; [reflexivity|split; [|split; [reflexivity|]]]].
  - apply (proj1 (GetFromGlobalQueue_nil_iff_empty SchedulerImpl 0 idle_world)).
    reflexivity.
  - apply (proj1 (proj2 (GetFromGlobalQueue_nil_iff_empty SchedulerImpl 0 global_only_world))
             (iptr (Some 7%positive)) (set_sched_runq [] global_only_world)).
    reflexivity.
  - apply (proj2 (proj2 (GetFromGlobalQueue_nil_iff_empty SchedulerImpl 5 global_only_world))
             7%positive); reflexivity.
Defined.

Lemma GetFromGlobalQueue_full_ring_rotates_witness :
  allp full_ring_world !! 0 = Some (mkP 1 0%N [1; 2; 3; 4]%positive 4) ∧
  ∃ (w' : world) (moved kept : list g),
    GetFromGlobalQueue SchedulerImpl 0 full_ring_world = Some (iptr (Some 5%positive), w') ∧
    allp w' = allp full_ring_world ∧
    [6; 7; 8; 9]%positive = moved ++ kept ∧
    sched_runq (sched w') = kept ++ moved ∧
    length moved ≤ 1.
Proof.
  split; [reflexivity|].
  destruct (GetFromGlobalQueue_full_ring_rotates SchedulerImpl 0
              (mkP 1 0%N [1; 2; 3; 4]%positive 4) full_ring_world 5%positive
              [6; 7; 8; 9]%positive eq_refl)
    as (w' & moved & kept & Hcall & Hallp & _ & Hsplit & Hq & Hlen);
    [simpl; lia|reflexivity|reflexivity|].
  exists w', moved, kept. repeat split; assumption.
Defined.


Lemma QueueTask_next_then_GetFromLocalQueue_witness :
  QueueTask SchedulerImpl 2%positive (Some 0) true true runnext_taken_world
    = Some (tt, runnext_replaced_world) ∧
  ∃ w2 : world,
    GetFromLocalQueue SchedulerImpl 0 runnext_replaced_world
      = Some ((iptr (Some 2%positive), true), w2) ∧
    queued_tasks w2 ≡ₚ queued_tasks runnext_taken_world.
Proof.
  split; [reflexivity|].
  destruct (QueueTask_next_then_GetFromLocalQueue SchedulerImpl 2%positive 0 0
              runnext_taken_world runnext_replaced_world eq_refl)
    as (P1 & w2 & _ & Hget & Hperm & _).
  exists w2. split; [exact Hget|exact Hperm].
Defined.

Lemma CheckGlobalQueue_holds_within_modulus_witness :
  check_modulus newPriorityScheduler_Scheduler = Some 31%Z ∧
  ∃ k : nat, (Z.of_nat k < 31)%Z ∧
    CheckGlobalQueue newPriorityScheduler_Scheduler 0 (idle_rounds k)
      = Some (true, idle_rounds k).
Proof.
  split; [reflexivity|].
  apply (CheckGlobalQueue_holds_within_modulus newPriorityScheduler_Scheduler 31 0
           (schedtick idle_p) idle_rounds); [reflexivity|simpl; lia|].
  intros k Hk. eexists. split; [reflexivity|]. split; [reflexivity|discriminate].
Defined.

Lemma GetFromLocalQueue_StealWork_results_are_typed_witness :
  GetFromLocalQueue newPriorityScheduler_Scheduler 0 idle_world
    = Some ((iptr None, false), idle_world) ∧
  iface_nonnil (iptr None) = true.
Proof.
  split; [reflexivity|].
  apply (proj1 (GetFromLocalQueue_StealWork_results_are_typed
                  newPriorityScheduler_Scheduler 0 0 0 idle_world)
           (iptr None) false idle_world).
  reflexivity.
Defined.
